(** * uargparse: a shallow embedding of [uargparse.py] and its verified properties

    The Python module is embedded function by function.  Python list objects
    that can be shared between the caller, the registered specs and the parse
    result live in an explicit store and are referred to by location, so that
    aliasing is visible; the parser's private working copy of the token list
    and its other locals are threaded as explicit state.

    A call ends by returning, by raising [_ArgError], by [sys.exit] or by
    another exception; what it did to the store before it failed stays done.
    Converters ([type=...]) are pure functions of the token.  [usage] only
    prints and is left out. *)

From Stdlib Require Import ZArith Ascii String Bool Lia.
From stdpp Require Import base list.

Local Open Scope string_scope.
Local Open Scope Z_scope.
Local Open Scope list_scope.

(** ** Strings *)

(** [s.startswith(pre)] *)
Definition startswith (s pre : string) : bool := String.prefix pre s.

(** [s.lstrip("-")] *)
Fixpoint lstrip_dash (s : string) : string :=
  match s with
  | String c s' => if Ascii.eqb c "-" then lstrip_dash s' else s
  | EmptyString => EmptyString
  end.

(** [s.replace("-", "_")] *)
Fixpoint replace_dash (s : string) : string :=
  match s with
  | String c s' => String (if Ascii.eqb c "-" then "_"%char else c) (replace_dash s')
  | EmptyString => EmptyString
  end.

(** [a in names] for a tuple of strings *)
Definition str_in (a : string) (names : list string) : bool :=
  existsb (String.eqb a) names.

(** ** Python values and the store of list objects *)

Definition loc := nat.

(** The values that flow through the parser.  A Python list is a mutable
    object: the value is its location in the store. *)
Inductive value :=
| VNone
| VBool (b : bool)
| VInt (z : Z)
| VStr (s : string)
| VList (l : loc).
Arguments VList l%_nat.

(** The store: the contents of every list object, indexed by location. *)
Abbreviation store := (list (list value)).

(** A new list object ([[]] or a list display). *)
Definition alloc (σ : store) (vs : list value) : loc * store :=
  (List.length σ, σ ++ [vs]).

(** [lst.append(v)] on the list object at [l]. *)
Definition store_append (σ : store) (l : loc) (v : value) : store :=
  alter (λ vs, vs ++ [v]) l σ.

(** [x == None] *)
Definition is_none (v : value) : bool :=
  match v with VNone => true | _ => false end.

(** [tok == c] for a string [tok] and a value [c] *)
Definition str_eq_value (tok : string) (c : value) : bool :=
  match c with VStr s => String.eqb tok s | _ => false end.

(** ** Outcomes *)

(** [_ArgError], one constructor per raise site, named after the failure it
    reports. *)
Inductive _ArgError :=
| MissingValue (optname : string)
    (* "expecting value for %s" *)
| InvalidChoice (tok : string) (allowed : list value)
    (* "value %s must be one of this '%s'" *)
| InvalidValue (type_name : option string) (tok : string) (optname : string)
    (* "invalid %s value: %s", or without a type name
       "value %s is not applicable for type of key %s" *)
| UnknownOption (a : string)
    (* "unknown option %s" *)
| ExtraArguments (rest : list string)
    (* "extra args: %s" *)
| MissingRequired (dests : list string).
    (* "option(s) '%s' is(are) required" *)

(** Python exceptions that are not [_ArgError] and are caught nowhere. *)
Inductive exn := IndexError | AttributeError | TypeError | ValueError | AssertionError.

(** The ways a call ends other than by returning. *)
Inductive failure :=
| Raise (e : _ArgError)      (* raise _ArgError(...) *)
| SysExit (code : Z) (printed : option _ArgError)
                             (* sys.exit(code), after the usage text and,
                                on an error, the line "error: ..." *)
| Uncaught (e : exn)         (* any other exception *)
| OutOfFuel.                 (* the model's loop bound was too small *)

Inductive outcome (A : Type) :=
| Ret (a : A)
| Fail (f : failure).
Arguments Ret {A} a.
Arguments Fail {A} f.

(** ** Converters ([type=...]) *)

(** A converter is a callable applied to one raw token.  [conv_apply] is
    [None] when the call raises [TypeError], [ValueError] or [OSError];
    [conv_name] is its [__name__], when it has one. *)
Record converter := {
  conv_name : option string;
  conv_apply : string -> option value
}.

Definition py_str : converter :=
  {| conv_name := Some "str"; conv_apply := fun s => Some (VStr s) |}.

Definition digit_of (c : ascii) : option Z :=
  let n := nat_of_ascii c in
  if (48 <=? n)%nat && (n <=? 57)%nat then Some (Z.of_nat (n - 48)) else None.

(** Decimal digits, with single underscores allowed between digits. *)
Fixpoint digits (acc : Z) (after_digit : bool) (s : string) : option Z :=
  match s with
  | EmptyString => if after_digit then Some acc else None
  | String c s' =>
    match digit_of c with
    | Some d => digits (10 * acc + d) true s'
    | None => if Ascii.eqb c "_" && after_digit then digits acc false s' else None
    end
  end.

Definition is_space (c : ascii) : bool :=
  let n := nat_of_ascii c in
  (n =? 32)%nat || ((9 <=? n)%nat && (n <=? 13)%nat).

Fixpoint lstrip_space (s : string) : string :=
  match s with
  | String c s' => if is_space c then lstrip_space s' else s
  | EmptyString => EmptyString
  end.

Fixpoint rstrip_space (s : string) : string :=
  match s with
  | String c s' =>
    match rstrip_space s' with
    | EmptyString => if is_space c then EmptyString else String c EmptyString
    | r => String c r
    end
  | EmptyString => EmptyString
  end.

(** [int(s)] for a string: surrounding white space, an optional sign, decimal
    digits.  [None] is [ValueError]. *)
Definition int_of_string (s : string) : option Z :=
  match rstrip_space (lstrip_space s) with
  | String "-" s' => Z.opp <$> digits 0 false s'
  | String "+" s' => digits 0 false s'
  | s' => digits 0 false s'
  end.

Definition py_int : converter :=
  {| conv_name := Some "int"; conv_apply := fun s => VInt <$> int_of_string s |}.

(** ** [class _Arg] *)

Record _Arg := mk_Arg {
  names : list string;
  dest : string;
  metavar : option string;
  arg_type : converter;
  action : string;
  nargs : value;
  const : value;
  default : value;
  required : bool;
  choices : option (list value);
  help : string
}.

(** [self.arg_type(_arg)] with its [except] clauses *)
Definition convert (self : _Arg) (optname : string) (_arg : string) : outcome value :=
  match conv_apply (arg_type self) _arg with
  | Some v => Ret v
  | None => Fail (Raise (InvalidValue (conv_name (arg_type self)) _arg optname))
  end.

(** [self.choices and _arg not in self.choices] *)
Definition rejected_by_choices (self : _Arg) (_arg : string) : bool :=
  match choices self with
  | Some (c :: cs) => negb (existsb (str_eq_value _arg) (c :: cs))
  | _ => false
  end.

(** [_checked(_arg)], the closure inside [_Arg.parse]. *)
Definition _checked (self : _Arg) (optname : string) (_arg : string) : outcome value :=
  if rejected_by_choices self _arg
  then Fail (Raise (InvalidChoice _arg (from_option id [] (choices self))))
  else convert self optname _arg.

(** [int(self.nargs)] *)
Definition int_of_value (v : value) : outcome Z :=
  match v with
  | VInt z => Ret z
  | VBool b => Ret (if b then 1 else 0)
  | VStr s => match int_of_string s with Some z => Ret z | None => Fail (Uncaught ValueError) end
  | VNone | VList _ => Fail (Uncaught TypeError)
  end.

(** [args[0].startswith("-") and args[0] != "-"] *)
Definition dashed (a : string) : bool :=
  startswith a "-" && negb (String.eqb a "-").

(** The [while args and n != 0] loop of [_Arg.parse]: it returns the
    collected values, the final [n] and the tokens left. *)
Fixpoint collect (self : _Arg) (optname : string) (n : Z) (stop_at_opt : bool)
    (ret : list value) (args : list string) : outcome (list value * Z) * list string :=
  match args with
  | [] => (Ret (ret, n), [])
  | a :: rest =>
    if n =? 0 then (Ret (ret, n), args)
    else if stop_at_opt && dashed a then
      if String.eqb a "--" then collect self optname n false ret rest
      else (Ret (ret, n), args)
    else
      match _checked self optname a with
      | Ret v => collect self optname (n - 1) stop_at_opt (ret ++ [v]) rest
      | Fail f => (Fail f, rest)
      end
  end.

(** The variable-arity branch once [n] is known: run the loop, then
    [if n > 0: raise], else return the list [ret], a new object. *)
Definition parse_multi (self : _Arg) (optname : string) (n : Z)
    (args : list string) (σ : store) : outcome value * list string * store :=
  match collect self optname n true [] args with
  | (Ret (ret, n'), args') =>
    if 0 <? n' then (Fail (Raise (MissingValue optname)), args', σ)
    else let '(l, σ') := alloc σ ret in (Ret (VList l), args', σ')
  | (Fail f, args') => (Fail f, args', σ)
  end.

(** [_Arg.parse(self, optname, args)]: the result, the tokens left in [args]
    and the store. *)
Definition parse (self : _Arg) (optname : string) (args : list string) (σ : store)
    : outcome value * list string * store :=
  if String.eqb (action self) "store" || String.eqb (action self) "append" then
    if is_none (nargs self) then
      match args with
      | a :: rest => (_checked self optname a, rest, σ)
      | [] => (Fail (Raise (MissingValue optname)), args, σ)
      end
    else if str_eq_value "?" (nargs self) then
      match args with
      | a :: rest => (_checked self optname a, rest, σ)
      | [] => (Ret (default self), args, σ)
      end
    else if str_eq_value "*" (nargs self) then parse_multi self optname (-1) args σ
    else if str_eq_value "+" (nargs self) then
      match args with
      | [] => (Fail (Raise (MissingValue optname)), args, σ)
      | _ => parse_multi self optname (-1) args σ
      end
    else
      match int_of_value (nargs self) with
      | Ret n => parse_multi self optname n args σ
      | Fail f => (Fail f, args, σ)
      end
  else if String.eqb (action self) "store_const" then (Ret (const self), args, σ)
  else (Fail (Uncaught AssertionError), args, σ).

(** ** Registration *)

(** [name.startswith("--")]: a spelling with the long-option marker. *)
Definition is_long (name : string) : bool := startswith name "--".

(** [_dest_from_optnames(opt_names)]; the [for ... break] loop is [find]. *)
Definition _dest_from_optnames (opt_names : list string) : outcome string :=
  match opt_names with
  | [] => Fail (Uncaught IndexError)
  | n0 :: _ =>
    let dest := from_option id n0 (List.find is_long opt_names) in
    Ret (replace_dash (lstrip_dash dest))
  end.

(** The keyword arguments of [add_argument]; [None] is an absent key. *)
Record kwargs := {
  kw_action : option string;
  kw_const : option value;
  kw_default : option value;
  kw_dest : option string;
  kw_type : option converter;
  kw_nargs : option value;
  kw_metavar : option string;
  kw_required : option bool;
  kw_choices : option (list value);
  kw_help : option string
}.

Definition no_kwargs : kwargs :=
  {| kw_action := None; kw_const := None; kw_default := None; kw_dest := None;
     kw_type := None; kw_nargs := None; kw_metavar := None; kw_required := None;
     kw_choices := None; kw_help := None |}.

(** [class ArgumentParser]: the display strings and the two lists of specs. *)
Record ArgumentParser := {
  prog : string;
  description : string;
  epilog : string;
  opt : list _Arg;
  pos : list _Arg
}.

(** [ArgumentParser(prog=..., description=..., epilog=...)] *)
Definition new_parser (prog description epilog : string) : ArgumentParser :=
  {| prog := prog; description := description; epilog := epilog; opt := []; pos := [] |}.

(** [self.opt.append(a)] and [self.pos.append(a)] *)
Definition append_opt (self : ArgumentParser) (a : _Arg) : ArgumentParser :=
  {| prog := prog self; description := description self; epilog := epilog self;
     opt := opt self ++ [a]; pos := pos self |}.

Definition append_pos (self : ArgumentParser) (a : _Arg) : ArgumentParser :=
  {| prog := prog self; description := description self; epilog := epilog self;
     opt := opt self; pos := pos self ++ [a] |}.

(** [add_argument]: [args] are the declared spellings, [kw] the keyword
    arguments; the result is the parser with the new spec appended to [opt]
    or to [pos]. *)
Definition add_argument (self : ArgumentParser) (args : list string) (kw : kwargs)
    : outcome ArgumentParser :=
  let action0 := from_option id "store" (kw_action kw) in
  let '(action, const, default) :=
    if String.eqb action0 "store_true" then
      ("store_const", VBool true, from_option id (VBool false) (kw_default kw))
    else if String.eqb action0 "store_false" then
      ("store_const", VBool false, from_option id (VBool true) (kw_default kw))
    else
      (action0, from_option id VNone (kw_const kw), from_option id VNone (kw_default kw)) in
  let mk names dest :=
    mk_Arg names dest (kw_metavar kw) (from_option id py_str (kw_type kw)) action
      (from_option id VNone (kw_nargs kw)) const default
      (from_option id false (kw_required kw)) (kw_choices kw)
      (from_option id "" (kw_help kw)) in
  let named := match args with a0 :: _ => startswith a0 "-" | [] => false end in
  if named then
    match kw_dest kw with
    | Some dest => Ret (append_opt self (mk args dest))
    | None =>
      match _dest_from_optnames args with
      | Ret dest => Ret (append_opt self (mk args dest))
      | Fail f => Fail f
      end
    end
  else
    match kw_dest kw, args with
    | None, [] => Fail (Uncaught IndexError)
    | None, a0 :: _ => Ret (append_pos self (mk args a0))
    | Some dest, [] => Ret (append_pos self (mk [dest] dest))
    | Some dest, _ :: _ => Ret (append_pos self (mk args dest))
    end.

(** ** Parsing *)

(** [consume_unknown()], the closure inside [_parse_args]: it moves tokens
    from the front of [args] to the end of [unknown]. *)
Fixpoint consume_unknown (unknown args : list string) : list string * list string :=
  match args with
  | a :: rest =>
    if negb (startswith a "-") then consume_unknown (unknown ++ [a]) rest
    else (unknown, args)
  | [] => (unknown, [])
  end.

(** [a.startswith("-") and a != "-" and a != "--"]: the token looks like a
    named-option spelling. *)
Definition looks_named (a : string) : bool :=
  startswith a "-" && negb (String.eqb a "-") && negb (String.eqb a "--").

(** The condition of the named branch,
    [args and args[0].startswith("-") and args[0] != "-" and args[0] != "--"];
    when it holds, the token popped and the tokens after it. *)
Definition front_option (args : list string) : option (string * list string) :=
  match args with
  | a :: rest => if looks_named a then Some (a, rest) else None
  | [] => None
  end.

(** [for i, opt in enumerate(self.opt)] for the popped token [a], from index
    [i] on: the final [found] and [arg_vals], the tokens left and the store. *)
Fixpoint scan (a : string) (i : nat) (opts : list _Arg) (found : bool)
    (arg_vals : list value) (args : list string) (σ : store)
    : outcome (bool * list value) * list string * store :=
  match opts with
  | [] => (Ret (found, arg_vals), args, σ)
  | opt :: opts' =>
    if str_in a (names opt) then
      if String.eqb (action opt) "append" then
        match arg_vals !! i with
        | None => (Fail (Uncaught IndexError), args, σ)
        | Some v0 =>
          (* if type(arg_vals[i]) is type(None): arg_vals[i] = [] *)
          let '(v1, arg_vals1, σ1) :=
            if is_none v0
            then let '(l, σ1) := alloc σ [] in (VList l, <[i := VList l]> arg_vals, σ1)
            else (v0, arg_vals, σ) in
          (* arg_vals[i].append(opt.parse(a, args)) *)
          match v1 with
          | VList l =>
            match parse opt a args σ1 with
            | (Ret v, args', σ2) =>
              scan a (S i) opts' true arg_vals1 args' (store_append σ2 l v)
            | (Fail f, args', σ2) => (Fail f, args', σ2)
            end
          | _ => (Fail (Uncaught AttributeError), args, σ1)
          end
        end
      else
        (* arg_vals[i] = opt.parse(a, args); found = True; break *)
        match parse opt a args σ with
        | (Ret v, args', σ') =>
          if decide (i < List.length arg_vals)%nat
          then (Ret (true, <[i := v]> arg_vals), args', σ')
          else (Fail (Uncaught IndexError), args', σ')
        | (Fail f, args', σ') => (Fail f, args', σ')
        end
    else scan a (S i) opts' found arg_vals args σ
  end.

(** [for pos in self.pos]: every positional spec takes its values from the
    front of [args]. *)
Fixpoint parse_pos (poss : list _Arg) (arg_dest : list string) (arg_vals : list value)
    (args : list string) (σ : store)
    : outcome (list string * list value) * list string * store :=
  match poss with
  | [] => (Ret (arg_dest, arg_vals), args, σ)
  | pos :: poss' =>
    match names pos with
    | [] => (Fail (Uncaught IndexError), args, σ)
    | name0 :: _ =>
      match parse pos name0 args σ with
      | (Ret v, args', σ') =>
        parse_pos poss' (arg_dest ++ [dest pos]) (arg_vals ++ [v]) args' σ'
      | (Fail f, args', σ') => (Fail f, args', σ')
      end
    end
  end.

(** The locals of [_parse_args] when its [while] loop is left. *)
Record locals := {
  l_dest : list string;
  l_vals : list value;
  l_unknown : list string
}.

(** [while args or not parsed_pos], at most [fuel] evaluations of its
    condition. *)
Fixpoint loop (fuel : nat) (self : ArgumentParser) (return_unknown : bool)
    (args : list string) (parsed_pos : bool)
    (arg_dest : list string) (arg_vals : list value) (unknown : list string) (σ : store)
    : outcome locals * store :=
  match fuel with
  | O => (Fail OutOfFuel, σ)
  | S fuel' =>
    if negb (bool_decide (args = [])) || negb parsed_pos then
      match front_option args with
      | Some (a, rest) =>
        (* optional(named) arguments *)
        if str_in a ["-h"; "--help"] then (Fail (SysExit 0 None), σ)
        else
          match scan a 0 (opt self) false arg_vals rest σ with
          | (Ret (found, arg_vals'), args', σ') =>
            if found then
              loop fuel' self return_unknown args' parsed_pos arg_dest arg_vals' unknown σ'
            else if return_unknown then
              let '(unknown', args'') := consume_unknown (unknown ++ [a]) args' in
              loop fuel' self return_unknown args'' parsed_pos arg_dest arg_vals' unknown' σ'
            else (Fail (Raise (UnknownOption a)), σ')
          | (Fail f, _, σ') => (Fail f, σ')
          end
      | None =>
        (* positional arguments *)
        if parsed_pos then
          if return_unknown
          then (Ret {| l_dest := arg_dest; l_vals := arg_vals; l_unknown := unknown ++ args |}, σ)
          else (Fail (Raise (ExtraArguments args)), σ)
        else
          match parse_pos (pos self) arg_dest arg_vals args σ with
          | (Ret (arg_dest', arg_vals'), args', σ') =>
            let '(unknown', args'') :=
              if return_unknown then consume_unknown unknown args' else (unknown, args') in
            loop fuel' self return_unknown args'' true arg_dest' arg_vals' unknown' σ'
          | (Fail f, _, σ') => (Fail f, σ')
          end
      end
    else (Ret {| l_dest := arg_dest; l_vals := arg_vals; l_unknown := unknown |}, σ)
  end.

(** [[arg.dest for i, arg in enumerate(self.opt)
      if arg.required == True and arg_vals[i] == None]], from index [i] on. *)
Fixpoint required_but_not_used (opts : list _Arg) (i : nat) (arg_vals : list value)
    : outcome (list string) :=
  match opts with
  | [] => Ret []
  | arg :: opts' =>
    if required arg then
      match arg_vals !! i with
      | None => Fail (Uncaught IndexError)
      | Some v =>
        match required_but_not_used opts' (S i) arg_vals with
        | Ret ds => Ret (if is_none v then dest arg :: ds else ds)
        | Fail f => Fail f
        end
      end
    else required_but_not_used opts' (S i) arg_vals
  end.

(** [namedtuple("args", arg_dest)( *arg_vals)]: the record as the list of its
    fields in order.  Whether a field name is acceptable is left to the
    platform's [namedtuple] and is not checked here. *)
Definition namedtuple (arg_dest : list string) (arg_vals : list value)
    : outcome (list (string * value)) :=
  if decide (List.length arg_dest = List.length arg_vals)
  then Ret (combine arg_dest arg_vals)
  else Fail (Uncaught TypeError).

(** What [_parse_args] returns: [values], or [(values, unknown)]. *)
Record parsed := {
  values : list (string * value);
  unknown : option (list string)
}.

(** [_parse_args(self, args, return_unknown)], where [args] is the content of
    the working copy of the token list. *)
Definition _parse_args (self : ArgumentParser) (args : list string) (return_unknown : bool)
    (σ : store) : outcome parsed * store :=
  (* add optional(named) args with defaults *)
  let arg_dest := map dest (opt self) in
  let arg_vals := map default (opt self) in
  match loop (S (S (List.length args))) self return_unknown args false arg_dest arg_vals [] σ with
  | (Ret st, σ') =>
    (* checks the required arguments *)
    match required_but_not_used (opt self) 0 (l_vals st) with
    | Ret [] =>
      match namedtuple (l_dest st) (l_vals st) with
      | Ret vs =>
        (Ret {| values := vs;
                unknown := if return_unknown then Some (l_unknown st) else None |}, σ')
      | Fail f => (Fail f, σ')
      end
    | Ret ds => (Fail (Raise (MissingRequired ds)), σ')
    | Fail f => (Fail f, σ')
    end
  | (Fail f, σ') => (Fail f, σ')
  end.

(** The tokens of a list object; [None] when an element is not a string. *)
Fixpoint tokens_of (vs : list value) : option (list string) :=
  match vs with
  | [] => Some []
  | VStr s :: vs' => cons s <$> tokens_of vs'
  | _ :: _ => None
  end.

(** [_parse_args_impl(self, args, return_unknown)].  [args] is [None] or the
    location of the caller's list; [argv] is [sys.argv].  The slice
    [args[:]] is a new list that only the local variable [args] refers to:
    its content is what [_parse_args] threads.  A caller's list with an
    element that is not a string is outside the input type and is rejected
    on entry.  [usage] only prints and is not modelled. *)
Definition _parse_args_impl (self : ArgumentParser) (argv : list string)
    (args : option loc) (return_unknown : bool) (σ : store) : outcome parsed * store :=
  let run toks :=
    match _parse_args self toks return_unknown σ with
    | (Fail (Raise e), σ') => (Fail (SysExit 2 (Some e)), σ')
    | r => r
    end in
  match args with
  | None => run (tail argv)
  | Some l =>
    match σ !! l with
    | Some vs =>
      match tokens_of vs with
      | Some toks => run toks
      | None => (Fail (Uncaught AttributeError), σ)
      end
    | None => (Fail (Uncaught TypeError), σ)
    end
  end.

Definition parse_args (self : ArgumentParser) (argv : list string)
    (args : option loc) (σ : store) : outcome parsed * store :=
  _parse_args_impl self argv args false σ.

Definition parse_known_args (self : ArgumentParser) (argv : list string)
    (args : option loc) (σ : store) : outcome parsed * store :=
  _parse_args_impl self argv args true σ.

(** Sequencing of calls that may fail. *)
Definition and_then {A B : Type} (o : outcome A) (k : A -> outcome B) : outcome B :=
  match o with
  | Ret a => k a
  | Fail f => Fail f
  end.

(** ** Predicates used in the statements *)

(** [self.action == "store" or self.action == "append"]: the spec takes its
    value from the tokens. *)
Definition takes_values (self : _Arg) : Prop :=
  action self = "store" ∨ action self = "append".

(** [nargs] is none of [None], ["?"], ["*"] and ["+"], and [int(nargs)] is
    [N]: the arity is the fixed count [N]. *)
Definition fixed_count (self : _Arg) (N : Z) : Prop :=
  is_none (nargs self) = false ∧ str_eq_value "?" (nargs self) = false ∧
  str_eq_value "*" (nargs self) = false ∧ str_eq_value "+" (nargs self) = false ∧
  int_of_value (nargs self) = Ret N.

(** The arity of the spec is zero-or-more or one-or-more, whose extraction
    loop starts with [n = -1], or the fixed count [n]. *)
Definition variable_arity (self : _Arg) (n : Z) : Prop :=
  (nargs self = VStr "*" ∧ n = -1) ∨ (nargs self = VStr "+" ∧ n = -1) ∨ fixed_count self n.

(** The spec takes its value from the tokens with arity zero-or-one
    ([nargs="?"]). *)
Definition optional_arity (self : _Arg) : bool :=
  (String.eqb (action self) "store" || String.eqb (action self) "append")
  && str_eq_value "?" (nargs self).

(** From [σ] to [σ'] no object is lost and the list object at [l] has the
    same content. *)
Definition keeps (l : loc) (σ σ' : store) : Prop :=
  (List.length σ ≤ List.length σ')%nat ∧ σ' !! l = σ !! l.

(** No append spec of [opts] has, in [arg_vals], the list object at [l] as
    the list it appends to. *)
Definition not_appended_to (l : loc) (opts : list _Arg) (arg_vals : list value) : Prop :=
  ∀ i s, opts !! i = Some s → action s = "append" → arg_vals !! i ≠ Some (VList l).

(** The longest front run of elements that satisfy [p], and what follows it. *)
Fixpoint take_while {A : Type} (p : A → bool) (l : list A) : list A :=
  match l with
  | x :: l' => if p x then x :: take_while p l' else []
  | [] => []
  end.

Fixpoint drop_while {A : Type} (p : A → bool) (l : list A) : list A :=
  match l with
  | x :: l' => if p x then drop_while p l' else l
  | [] => []
  end.

(** [not t.startswith("-")] *)
Definition undashed (t : string) : bool := negb (startswith t "-").

(** ** Specs and parsers used as examples *)

(** A zero-or-more and a one-or-more spec of strings. *)
Definition star_spec : _Arg :=
  mk_Arg ["--items"] "items" None py_str "store" (VStr "*") VNone VNone false None "".

Definition plus_spec : _Arg :=
  mk_Arg ["--items"] "items" None py_str "append" (VStr "+") VNone VNone false None "".

(** [add_argument("--count", type=int, default=0)] then
    [add_argument("name", type=str)] *)
Definition count_name_parser : outcome ArgumentParser :=
  and_then
    (add_argument (new_parser "prog" "" "") ["--count"]
       {| kw_action := None; kw_const := None; kw_default := Some (VInt 0); kw_dest := None;
          kw_type := Some py_int; kw_nargs := None; kw_metavar := None; kw_required := None;
          kw_choices := None; kw_help := None |})
    (λ p, add_argument p ["name"]
       {| kw_action := None; kw_const := None; kw_default := None; kw_dest := None;
          kw_type := Some py_str; kw_nargs := None; kw_metavar := None; kw_required := None;
          kw_choices := None; kw_help := None |}).

(** The specs and the parser that these two calls build. *)
Definition count_spec : _Arg :=
  mk_Arg ["--count"] "count" None py_int "store" VNone VNone (VInt 0) false None "".

Definition name_spec : _Arg :=
  mk_Arg ["name"] "name" None py_str "store" VNone VNone VNone false None "".

Definition count_name : ArgumentParser :=
  append_pos (append_opt (new_parser "prog" "" "") count_spec) name_spec.

(** [add_argument("--flag", action="store_const", const=c)] then
    [add_argument("name")] *)
Definition flag_name_parser (c : value) : outcome ArgumentParser :=
  and_then
    (add_argument (new_parser "prog" "" "") ["--flag"]
       {| kw_action := Some "store_const"; kw_const := Some c; kw_default := None;
          kw_dest := None; kw_type := None; kw_nargs := None; kw_metavar := None;
          kw_required := None; kw_choices := None; kw_help := None |})
    (λ p, add_argument p ["name"] no_kwargs).

(** [add_argument("--flag", action="store_true")] then [add_argument("name")] *)
Definition switch_name_parser : outcome ArgumentParser :=
  and_then
    (add_argument (new_parser "prog" "" "") ["--flag"]
       {| kw_action := Some "store_true"; kw_const := None; kw_default := None;
          kw_dest := None; kw_type := None; kw_nargs := None; kw_metavar := None;
          kw_required := None; kw_choices := None; kw_help := None |})
    (λ p, add_argument p ["name"] no_kwargs).

(** [add_argument("name")] alone *)
Definition name_parser : outcome ArgumentParser :=
  add_argument (new_parser "prog" "" "") ["name"] no_kwargs.

(** The spec and the parser that [add_argument("-o", "--out", required=True)]
    builds. *)
Definition out_spec : _Arg :=
  mk_Arg ["-o"; "--out"] "out" None py_str "store" VNone VNone VNone true None "".

Definition out_parser : ArgumentParser :=
  append_opt (new_parser "prog" "" "") out_spec.

(** [add_argument("-o", "--out", required=True)] alone *)
Definition required_out_parser : outcome ArgumentParser :=
  add_argument (new_parser "prog" "" "") ["-o"; "--out"]
    {| kw_action := None; kw_const := None; kw_default := None; kw_dest := None;
       kw_type := None; kw_nargs := None; kw_metavar := None; kw_required := Some true;
       kw_choices := None; kw_help := None |}.

(** [add_argument("--opt", nargs="?")] alone *)
Definition optional_value_parser : outcome ArgumentParser :=
  add_argument (new_parser "prog" "" "") ["--opt"]
    {| kw_action := None; kw_const := None; kw_default := None; kw_dest := None;
       kw_type := None; kw_nargs := Some (VStr "?"); kw_metavar := None; kw_required := None;
       kw_choices := None; kw_help := None |}.

(** [add_argument("--x", action="append", default=lst)], where [lst] is the
    list object at [l] *)
Definition append_default_parser (l : loc) : outcome ArgumentParser :=
  add_argument (new_parser "prog" "" "") ["--x"]
    {| kw_action := Some "append"; kw_const := None; kw_default := Some (VList l);
       kw_dest := None; kw_type := None; kw_nargs := None; kw_metavar := None;
       kw_required := None; kw_choices := None; kw_help := None |}.

(** The spec and the parser that this call builds. *)
Definition append_default_spec (l : loc) : _Arg :=
  mk_Arg ["--x"] "x" None py_str "append" VNone VNone (VList l) false None "".

Definition append_default (l : loc) : ArgumentParser :=
  append_opt (new_parser "prog" "" "") (append_default_spec l).

Arguments append_default_parser l%_nat.
Arguments append_default_spec l%_nat.
Arguments append_default l%_nat.

(** [add_argument("--items", nargs="*")] alone *)
Definition items_parser : outcome ArgumentParser :=
  add_argument (new_parser "prog" "" "") ["--items"]
    {| kw_action := None; kw_const := None; kw_default := None; kw_dest := None;
       kw_type := None; kw_nargs := Some (VStr "*"); kw_metavar := None; kw_required := None;
       kw_choices := None; kw_help := None |}.

(** ** Definitions used in the further properties *)

(** The spec [self] with another [nargs]. *)
Definition with_nargs (self : _Arg) (n : value) : _Arg :=
  mk_Arg (names self) (dest self) (metavar self) (arg_type self) (action self) n
    (const self) (default self) (required self) (choices self) (help self).

(** ["-" in s] *)
Fixpoint has_dash (s : string) : bool :=
  match s with
  | String c s' => Ascii.eqb c "-" || has_dash s'
  | EmptyString => false
  end.

(** [_ArgError]s that a value extraction raises. *)
Definition value_error (e : _ArgError) : Prop :=
  match e with
  | MissingValue _ | InvalidChoice _ _ | InvalidValue _ _ _ => True
  | _ => False
  end.

(** The command line that gives the spelling [n] once for every value:
    [n, t1, n, t2, ...]. *)
Definition repeated (n : string) (ts : list string) : list string :=
  flat_map (λ t, [n; t]) ts.

(** A spec that takes its value from exactly one token ([nargs=None]). *)
Definition single_token (self : _Arg) : Prop :=
  takes_values self ∧ nargs self = VNone.

(** The spec [s] takes one token, [tv.1], and converts it to [tv.2]. *)
Definition takes_one (s : _Arg) (tv : string * value) : Prop :=
  single_token s ∧
  ∃ name0 rest, names s = name0 :: rest ∧ _checked s name0 tv.1 = Ret tv.2.

(** [count_name] with a second positional, [file]. *)
Definition file_spec : _Arg :=
  mk_Arg ["file"] "file" None py_str "store" VNone VNone VNone false None "".

Definition count_name_file : ArgumentParser := append_pos count_name file_spec.

(** A token that is neither a help spelling nor a spelling of a named spec
    of [self]. *)
Definition undeclared (self : ArgumentParser) (a : string) : Prop :=
  str_in a ["-h"; "--help"] = false ∧ Forall (λ s, str_in a (names s) = false) (opt self).

(** [add_argument(n, action="store_true")] for [b = true], and with
    ["store_false"] for [b = false] *)
Definition flag_kwargs (b : bool) : kwargs :=
  {| kw_action := Some (if b then "store_true" else "store_false"); kw_const := None;
     kw_default := None; kw_dest := None; kw_type := None; kw_nargs := None;
     kw_metavar := None; kw_required := None; kw_choices := None; kw_help := None |}.

(** * Verified properties *)

(** ** Registration: the derived [dest] *)

Section DestDerivation.

Lemma find_first_long (pre post : list string) (n : string) :
  Forall (λ x, is_long x = false) pre → is_long n = true →
  List.find is_long (pre ++ n :: post) = Some n.
Proof.
  induction 1 as [|x pre Hx _ IH]; intros Hn; simpl.
  - by rewrite Hn.
  - rewrite Hx. by apply IH.
Qed.

Lemma find_no_long (l : list string) :
  Forall (λ x, is_long x = false) l → List.find is_long l = None.
Proof. induction 1 as [|x l Hx _ IH]; simpl; [done|]. by rewrite Hx. Qed.

(** After [lstrip("-")] no dash leads, after [replace("-", "_")] none is left. *)
Lemma lstrip_dash_no_lead (s : string) : startswith (lstrip_dash s) "-" = false.
Proof.
  induction s as [|c s IH]; [done|].
  cbn [lstrip_dash]. destruct (Ascii.eqb c "-") eqn:E; [exact IH|].
  unfold startswith. cbn [String.prefix].
  destruct (ascii_dec "-" c) as [<-|]; [|done].
  by rewrite Ascii.eqb_refl in E.
Qed.

End DestDerivation.

(** C1, as stated, fails: with two long spellings the dest comes from the
    first one, [--foo], and not from the last one, [--bar]. *)
Lemma dest_not_from_last_long :
  last (filter (λ n, is_long n = true) ["--foo"; "--bar"]) = Some "--bar" ∧
  ∃ a, add_argument (new_parser "prog" "" "") ["--foo"; "--bar"] no_kwargs
         = Ret (append_opt (new_parser "prog" "" "") a) ∧
       dest a = "foo" ∧
       dest a ≠ replace_dash (lstrip_dash "--bar").
Proof.
  split; [reflexivity|]. eexists. split; [reflexivity|]. split; [reflexivity|]. discriminate.
Qed.

(** C1 (amended): for a named registration without an explicit dest,
    [add_argument] derives the dest from the FIRST spelling in declaration
    order that starts with [--], stripping its leading dashes and replacing
    the other dashes by underscores; when no spelling starts with [--] it
    uses the first spelling. *)
Theorem add_argument_dest_first_long (self : ArgumentParser) (a0 : string)
    (rest : list string) (kw : kwargs) :
  startswith a0 "-" = true → kw_dest kw = None →
  ∃ a, add_argument self (a0 :: rest) kw = Ret (append_opt self a) ∧
       names a = a0 :: rest ∧
       (∀ pre n post, a0 :: rest = pre ++ n :: post →
          Forall (λ x, is_long x = false) pre → is_long n = true →
          dest a = replace_dash (lstrip_dash n)) ∧
       (Forall (λ x, is_long x = false) (a0 :: rest) →
          dest a = replace_dash (lstrip_dash a0)).
Proof.
  intros Ha0 Hd. unfold add_argument. rewrite Ha0, Hd.
  set (act := from_option id "store" (kw_action kw)).
  destruct (String.eqb act "store_true"); [|destruct (String.eqb act "store_false")];
    (eexists; split; [reflexivity|]; split; [reflexivity|]; split;
     [ intros pre n post E Hpre Hn; cbn [dest]; rewrite E;
       by rewrite (find_first_long pre post n Hpre Hn)
     | intros Hall; cbn [dest]; by rewrite (find_no_long _ Hall) ]).
Qed.

Lemma add_argument_dest_first_long_witness :
  ∃ a, add_argument (new_parser "prog" "" "") ["-f"; "--foo-bar"; "--baz"] no_kwargs
         = Ret (append_opt (new_parser "prog" "" "") a) ∧
       names a = ["-f"; "--foo-bar"; "--baz"] ∧
       dest a = "foo_bar".
Proof.
  destruct (add_argument_dest_first_long (new_parser "prog" "" "") "-f"
              ["--foo-bar"; "--baz"] no_kwargs eq_refl eq_refl) as (a & Ha & Hn & Hlong & _).
  exists a. split; [exact Ha|]. split; [exact Hn|].
  change (dest a = replace_dash (lstrip_dash "--foo-bar")).
  apply (Hlong ["-f"] "--foo-bar" ["--baz"]); [reflexivity| |reflexivity].
  constructor; [reflexivity|constructor].
Defined.

(** ** Value extraction: [_Arg.parse] *)

Section ValueExtraction.

Variable self : _Arg.
Variable optname : string.

Lemma takes_values_test :
  takes_values self → String.eqb (action self) "store" || String.eqb (action self) "append" = true.
Proof. intros [-> | ->]; reflexivity. Qed.

Lemma parse_store_const (args : list string) (σ : store) :
  action self = "store_const" → parse self optname args σ = (Ret (const self), args, σ).
Proof. intros H. unfold parse. by rewrite H. Qed.

Lemma parse_star (args : list string) (σ : store) :
  takes_values self → nargs self = VStr "*" →
  parse self optname args σ = parse_multi self optname (-1) args σ.
Proof. intros Ha Hn. unfold parse. by rewrite (takes_values_test Ha), Hn. Qed.

Lemma parse_plus (a : string) (rest : list string) (σ : store) :
  takes_values self → nargs self = VStr "+" →
  parse self optname (a :: rest) σ = parse_multi self optname (-1) (a :: rest) σ.
Proof. intros Ha Hn. unfold parse. by rewrite (takes_values_test Ha), Hn. Qed.

Lemma parse_plus_nil (σ : store) :
  takes_values self → nargs self = VStr "+" →
  parse self optname [] σ = (Fail (Raise (MissingValue optname)), [], σ).
Proof. intros Ha Hn. unfold parse. by rewrite (takes_values_test Ha), Hn. Qed.

Lemma parse_count (N : Z) (args : list string) (σ : store) :
  takes_values self → fixed_count self N →
  parse self optname args σ = parse_multi self optname N args σ.
Proof.
  intros Ha (H1 & H2 & H3 & H4 & H5). unfold parse.
  by rewrite (takes_values_test Ha), H1, H2, H3, H4, H5.
Qed.

(** The loop stops at a dashed token other than [--] and leaves it. *)
Lemma collect_stop (n : Z) (ret : list value) (a : string) (rest : list string) :
  dashed a = true → a ≠ "--" →
  collect self optname n true ret (a :: rest) = (Ret (ret, n), a :: rest).
Proof.
  intros Hd Hne. cbn [collect]. rewrite Hd. cbn [andb].
  destruct (n =? 0); [done|].
  by destruct (String.eqb_spec a "--").
Qed.

(** The separator is dropped, [n] and [ret] are as before, the rule is off. *)
Lemma collect_separator (n : Z) (ret : list value) (rest : list string) :
  n ≠ 0 →
  collect self optname n true ret ("--" :: rest) = collect self optname n false ret rest.
Proof. intros Hn. cbn [collect]. by destruct (Z.eqb_spec n 0). Qed.

(** A run of tokens that pass [_checked] is collected whole, as long as
    [n] allows: any tokens when the stop rule is off, undashed ones when it
    is on. *)
Lemma collect_run (stop : bool) (xs : list string) (vs : list value) :
  Forall2 (λ a v, _checked self optname a = Ret v) xs vs →
  (stop = true → Forall (λ a, dashed a = false) xs) →
  ∀ (n : Z) (ret : list value) (ys : list string),
    n < 0 ∨ Z.of_nat (List.length xs) ≤ n →
    collect self optname n stop ret (xs ++ ys)
    = collect self optname (n - Z.of_nat (List.length xs)) stop (ret ++ vs) ys.
Proof.
  induction 1 as [|a v xs vs Hav _ IH]; intros Hplain n ret ys Hn.
  - cbn [List.length app]. rewrite Z.sub_0_r. by rewrite app_nil_r.
  - cbn [app collect]. cbn [List.length] in Hn.
    destruct (Z.eqb_spec n 0) as [->|Hn0]; [lia|].
    assert (stop && dashed a = false) as ->.
    { destruct stop; [|done]. specialize (Hplain eq_refl). by inversion Hplain. }
    rewrite Hav, IH.
    + replace (n - 1 - Z.of_nat (List.length xs))
        with (n - Z.of_nat (List.length (a :: xs))) by (cbn [List.length]; lia).
      by rewrite <- app_assoc.
    + intros ->. specialize (Hplain eq_refl). by inversion Hplain.
    + lia.
Qed.

(** The loop never raises on its own: a failure is the failure of
    [_checked] on one of the tokens. *)
Lemma collect_fail (n : Z) (stop : bool) (ret : list value) (args args' : list string)
    (f : failure) :
  collect self optname n stop ret args = (Fail f, args') →
  ∃ a, a ∈ args ∧ _checked self optname a = Fail f.
Proof.
  revert n stop ret. induction args as [|a rest IH]; intros n stop ret; cbn [collect]; [done|].
  destruct (n =? 0); [done|].
  destruct (stop && dashed a).
  - destruct (String.eqb a "--"); [|done].
    intros H. destruct (IH _ _ _ H) as (b & Hb & Hf). exists b. split; [by right|done].
  - destruct (_checked self optname a) as [v|f'] eqn:E.
    + intros H. destruct (IH _ _ _ H) as (b & Hb & Hf). exists b. split; [by right|done].
    + intros [= <- <-]. exists a. split; [by left|done].
Qed.

(** [n] never grows. *)
Lemma collect_n_le (n : Z) (stop : bool) (ret : list value) (args : list string)
    (ret' : list value) (n' : Z) (args' : list string) :
  collect self optname n stop ret args = (Ret (ret', n'), args') → n' ≤ n.
Proof.
  revert n stop ret. induction args as [|a rest IH]; intros n stop ret; cbn [collect].
  - intros [= _ <- _]. lia.
  - destruct (n =? 0); [intros [= _ <- _]; lia|].
    destruct (stop && dashed a).
    + destruct (String.eqb a "--"); [apply IH|intros [= _ <- _]; lia].
    + destruct (_checked self optname a); [|done].
      intros H. apply IH in H. lia.
Qed.

Lemma checked_not_missing (a o : string) :
  _checked self optname a ≠ Fail (Raise (MissingValue o)).
Proof.
  unfold _checked, convert. destruct (rejected_by_choices self a); [done|].
  by destruct (conv_apply _ _).
Qed.

(** With [n] negative the extraction never reports a missing value. *)
Lemma parse_multi_not_missing (n : Z) (args : list string) (σ : store) (o : string) :
  n < 0 → (parse_multi self optname n args σ).1.1 ≠ Fail (Raise (MissingValue o)).
Proof.
  intros Hn. unfold parse_multi.
  destruct (collect self optname n true [] args) as [[[ret n']|f] args'] eqn:E.
  - apply collect_n_le in E. destruct (Z.ltb_spec 0 n'); [lia|]. by cbn.
  - destruct (collect_fail _ _ _ _ _ _ E) as (a & _ & Ha). cbn. intros [= ->].
    by apply checked_not_missing in Ha.
Qed.

Lemma parse_multi_fail (n : Z) (args : list string) (σ : store) (f : failure) :
  n < 0 → (parse_multi self optname n args σ).1.1 = Fail f →
  ∃ a, a ∈ args ∧ _checked self optname a = Fail f.
Proof.
  intros Hn. unfold parse_multi.
  destruct (collect self optname n true [] args) as [[[ret n']|f'] args'] eqn:E.
  - apply collect_n_le in E. destruct (Z.ltb_spec 0 n'); [lia|]. by cbn.
  - cbn. intros [= ->]. by apply collect_fail in E.
Qed.

End ValueExtraction.

(** Every variable arity runs the loop, on a token list that is not empty. *)
Lemma parse_variable (self : _Arg) (optname : string) (n : Z) (a : string)
    (rest : list string) (σ : store) :
  takes_values self → variable_arity self n →
  parse self optname (a :: rest) σ = parse_multi self optname n (a :: rest) σ.
Proof.
  intros Htv [[Hn ->]|[[Hn ->]|Hfc]].
  - by apply parse_star.
  - by apply parse_plus.
  - by apply parse_count.
Qed.

(** C6: in every variable-arity extraction (zero-or-more, one-or-more,
    fixed count) the loop starts with the stop rule on; it stops at a token
    that starts with [-] and is not [-], leaving it unconsumed, except that
    the first [--] met is dropped without being collected and switches the
    rule off; from then on every token, whatever it looks like (dashed ones
    and further [--] included), is collected as a value.  This is stated on
    the loop and, for each of the three arities, on [parse] itself. *)
Theorem variable_arity_stop_rule (self : _Arg) (optname : string) :
  takes_values self →
  (* the three arities run the same loop *)
  (∀ args σ, nargs self = VStr "*" →
     parse self optname args σ = parse_multi self optname (-1) args σ) ∧
  (∀ args σ, nargs self = VStr "+" → args ≠ [] →
     parse self optname args σ = parse_multi self optname (-1) args σ) ∧
  (∀ N args σ, fixed_count self N →
     parse self optname args σ = parse_multi self optname N args σ) ∧
  (* the stop rule *)
  (∀ n ret a rest, dashed a = true → a ≠ "--" →
     collect self optname n true ret (a :: rest) = (Ret (ret, n), a :: rest)) ∧
  (* the separator *)
  (∀ n ret rest, n ≠ 0 →
     collect self optname n true ret ("--" :: rest) = collect self optname n false ret rest) ∧
  (* once the rule is off every token is collected *)
  (∀ n ret xs vs ys,
     Forall2 (λ a v, _checked self optname a = Ret v) xs vs →
     n < 0 ∨ Z.of_nat (List.length xs) ≤ n →
     collect self optname n false ret (xs ++ ys)
     = collect self optname (n - Z.of_nat (List.length xs)) false (ret ++ vs) ys) ∧
  (* end to end, for zero-or-more *)
  (∀ xs vs a rest σ, nargs self = VStr "*" →
     Forall2 (λ a v, _checked self optname a = Ret v) xs vs →
     Forall (λ a, dashed a = false) xs → dashed a = true → a ≠ "--" →
     parse self optname (xs ++ a :: rest) σ
     = (Ret (VList (List.length σ)), a :: rest, σ ++ [vs])) ∧
  (∀ xs vs ys ws σ, nargs self = VStr "*" →
     Forall2 (λ a v, _checked self optname a = Ret v) xs vs →
     Forall (λ a, dashed a = false) xs →
     Forall2 (λ a v, _checked self optname a = Ret v) ys ws →
     parse self optname (xs ++ "--" :: ys) σ
     = (Ret (VList (List.length σ)), [], σ ++ [vs ++ ws])) ∧
  (* the loop is entered with the rule on and nothing collected *)
  (∀ n args σ,
     parse_multi self optname n args σ
     = match collect self optname n true [] args with
       | (Ret (ret, n'), args') =>
         if 0 <? n' then (Fail (Raise (MissingValue optname)), args', σ)
         else (Ret (VList (List.length σ)), args', σ ++ [ret])
       | (Fail f, args') => (Fail f, args', σ)
       end) ∧
  (* end to end, for each of the three arities: the stop rule.  The
     undashed tokens [xs] are collected, the dashed token [a] stops the
     extraction and stays; a fixed count that is not reached then fails *)
  (∀ n xs vs a rest σ, variable_arity self n →
     Forall2 (λ a v, _checked self optname a = Ret v) xs vs →
     Forall (λ a, dashed a = false) xs →
     n < 0 ∨ Z.of_nat (List.length xs) ≤ n →
     dashed a = true → a ≠ "--" →
     parse self optname (xs ++ a :: rest) σ
     = if 0 <? n - Z.of_nat (List.length xs)
       then (Fail (Raise (MissingValue optname)), a :: rest, σ)
       else (Ret (VList (List.length σ)), a :: rest, σ ++ [vs])) ∧
  (* end to end, for each of the three arities: the separator.  After the
     undashed [xs] the token [--] is dropped, and the tokens [ys] after it
     are all collected, whatever they look like, until the tokens or the
     count run out *)
  (∀ n xs vs ys ws zs σ, variable_arity self n →
     Forall2 (λ a v, _checked self optname a = Ret v) xs vs →
     Forall (λ a, dashed a = false) xs →
     Forall2 (λ a v, _checked self optname a = Ret v) ys ws →
     n < 0 ∨ Z.of_nat (List.length xs) < n →
     n < 0 ∨ Z.of_nat (List.length xs + List.length ys) ≤ n →
     zs = [] ∨ n = Z.of_nat (List.length xs + List.length ys) →
     parse self optname (xs ++ "--" :: ys ++ zs) σ
     = if 0 <? n - Z.of_nat (List.length xs + List.length ys)
       then (Fail (Raise (MissingValue optname)), zs, σ)
       else (Ret (VList (List.length σ)), zs, σ ++ [vs ++ ws])).
Proof.
  intros Htv. split_and!.
  - intros. by apply parse_star.
  - intros [|a rest] σ Hn Hne; [done|]. by apply parse_plus.
  - intros. by apply parse_count.
  - intros. by apply collect_stop.
  - intros. by apply collect_separator.
  - intros n ret xs vs ys Hxs Hn. by apply collect_run.
  - intros xs vs a rest σ Hn Hxs Hplain Ha Hne.
    rewrite parse_star by done. unfold parse_multi.
    rewrite (collect_run self optname true xs vs Hxs (λ _, Hplain)) by lia.
    rewrite collect_stop by done. cbn [app].
    destruct (Z.ltb_spec 0 (-1 - Z.of_nat (List.length xs))); [lia|]. done.
  - intros xs vs ys ws σ Hn Hxs Hplain Hys.
    rewrite parse_star by done. unfold parse_multi.
    rewrite (collect_run self optname true xs vs Hxs (λ _, Hplain)) by lia.
    rewrite collect_separator by lia. cbn [app].
    rewrite <- (app_nil_r ys).
    rewrite (collect_run self optname false ys ws Hys) by (done || lia).
    cbn [collect].
    destruct (Z.ltb_spec 0 (-1 - Z.of_nat (List.length xs) - Z.of_nat (List.length ys))); [lia|].
    done.
  - intros n args σ. unfold parse_multi.
    destruct (collect self optname n true [] args) as [[[ret n']|f] args']; [|done].
    by destruct (0 <? n').
  - intros n xs vs a rest σ Hva Hxs Hplain Hn Ha Hne.
    assert (parse self optname (xs ++ a :: rest) σ
            = parse_multi self optname n (xs ++ a :: rest) σ) as ->.
    { destruct xs; by apply parse_variable. }
    unfold parse_multi.
    rewrite (collect_run self optname true xs vs Hxs (λ _, Hplain)) by done.
    rewrite collect_stop by done. cbn [app].
    by destruct (0 <? n - Z.of_nat (List.length xs)).
  - intros n xs vs ys ws zs σ Hva Hxs Hplain Hys Hn1 Hn2 Hend.
    assert (parse self optname (xs ++ "--" :: ys ++ zs) σ
            = parse_multi self optname n (xs ++ "--" :: ys ++ zs) σ) as ->.
    { destruct xs; by apply parse_variable. }
    unfold parse_multi.
    rewrite (collect_run self optname true xs vs Hxs (λ _, Hplain)) by lia.
    rewrite collect_separator by lia. cbn [app].
    rewrite (collect_run self optname false ys ws Hys) by (done || lia).
    replace (n - Z.of_nat (List.length xs) - Z.of_nat (List.length ys))
      with (n - Z.of_nat (List.length xs + List.length ys)) by lia.
    assert (collect self optname (n - Z.of_nat (List.length xs + List.length ys)) false
              (vs ++ ws) zs
            = (Ret (vs ++ ws, n - Z.of_nat (List.length xs + List.length ys)), zs)) as ->.
    { destruct Hend as [->| ->]; [done|]. rewrite Z.sub_diag. by destruct zs. }
    by destruct (0 <? n - Z.of_nat (List.length xs + List.length ys)).
Qed.

Lemma variable_arity_stop_rule_witness :
  (* zero-or-more *)
  parse star_spec "--items" ["a"; "--"; "-b"; "--"; "c"] []
  = (Ret (VList 0), [], [[VStr "a"; VStr "-b"; VStr "--"; VStr "c"]]) ∧
  parse star_spec "--items" ["a"; "-b"; "c"] []
  = (Ret (VList 0), ["-b"; "c"], [[VStr "a"]]) ∧
  (* one-or-more *)
  parse plus_spec "--items" ["a"; "-b"; "c"] []
  = (Ret (VList 0), ["-b"; "c"], [[VStr "a"]]) ∧
  parse plus_spec "--items" ["a"; "--"; "-b"; "--"; "c"] []
  = (Ret (VList 0), [], [[VStr "a"; VStr "-b"; VStr "--"; VStr "c"]]) ∧
  (* the fixed count 2 *)
  parse (with_nargs star_spec (VInt 2)) "--items" ["a"; "--verbose"; "c"] []
  = (Fail (Raise (MissingValue "--items")), ["--verbose"; "c"], []) ∧
  parse (with_nargs star_spec (VInt 2)) "--items" ["--"; "--verbose"; "--"; "c"] []
  = (Ret (VList 0), ["c"], [[VStr "--verbose"; VStr "--"]]).
Proof.
  destruct (variable_arity_stop_rule star_spec "--items" (or_introl eq_refl))
    as (_ & _ & _ & _ & _ & _ & Hstop & Hsep & _).
  destruct (variable_arity_stop_rule plus_spec "--items" (or_intror eq_refl))
    as (_ & _ & _ & _ & _ & _ & _ & _ & _ & Hstop1 & Hsep1).
  destruct (variable_arity_stop_rule (with_nargs star_spec (VInt 2)) "--items"
              (or_introl eq_refl))
    as (_ & _ & _ & _ & _ & _ & _ & _ & _ & Hstop2 & Hsep2).
  split; [|split; [|split; [|split; [|split]]]].
  - apply (Hsep ["a"] [VStr "a"] ["-b"; "--"; "c"] [VStr "-b"; VStr "--"; VStr "c"] []);
      [reflexivity|repeat constructor..].
  - apply (Hstop ["a"] [VStr "a"] "-b" ["c"] []);
      [reflexivity|repeat constructor|repeat constructor|reflexivity|discriminate].
  - apply (Hstop1 (-1) ["a"] [VStr "a"] "-b" ["c"] []);
      [right; left; by split|repeat constructor|repeat constructor|left; lia
      |reflexivity|discriminate].
  - apply (Hsep1 (-1) ["a"] [VStr "a"] ["-b"; "--"; "c"] [VStr "-b"; VStr "--"; VStr "c"]
             [] []);
      [right; left; by split|repeat constructor|repeat constructor|repeat constructor
      |left; lia|left; lia|by left].
  - apply (Hstop2 2 ["a"] [VStr "a"] "--verbose" ["c"] []);
      [right; right; by repeat split|repeat constructor|repeat constructor|right; cbn; lia
      |reflexivity|discriminate].
  - apply (Hsep2 2 [] [] ["--verbose"; "--"] [VStr "--verbose"; VStr "--"] ["c"] []);
      [right; right; by repeat split|repeat constructor|repeat constructor|repeat constructor
      |right; cbn; lia|right; cbn; lia|by right].
Defined.

(** C7: for a store or append spec, one-or-more fails with MissingValue
    exactly when no token is left on entry; zero-or-more on an empty token
    sequence returns a new empty list, and on any tokens it never reports a
    missing value: it can only fail on a token that [_checked] rejects. *)
Theorem one_or_more_vs_zero_or_more (self : _Arg) (optname : string)
    (args : list string) (σ : store) :
  takes_values self →
  (nargs self = VStr "+" →
     ((∃ o, (parse self optname args σ).1.1 = Fail (Raise (MissingValue o))) ↔ args = []) ∧
     parse self optname [] σ = (Fail (Raise (MissingValue optname)), [], σ)) ∧
  (nargs self = VStr "*" →
     parse self optname [] σ = (Ret (VList (List.length σ)), [], σ ++ [[]]) ∧
     (∀ o, (parse self optname args σ).1.1 ≠ Fail (Raise (MissingValue o))) ∧
     (∀ f, (parse self optname args σ).1.1 = Fail f →
        ∃ a, a ∈ args ∧ _checked self optname a = Fail f)).
Proof.
  intros Htv. split; intros Hn.
  - split; [|by apply parse_plus_nil]. split.
    + intros [o Ho]. destruct args as [|a rest]; [done|].
      rewrite parse_plus in Ho by done.
      by apply parse_multi_not_missing in Ho.
    + intros ->. exists optname. by rewrite parse_plus_nil.
  - split; [by rewrite parse_star|]. split.
    + intros o. rewrite parse_star by done. by apply parse_multi_not_missing.
    + intros f. rewrite parse_star by done. by apply parse_multi_fail.
Qed.

Lemma one_or_more_vs_zero_or_more_witness :
  parse plus_spec "--items" [] [] = (Fail (Raise (MissingValue "--items")), [], []) ∧
  parse star_spec "--items" [] [] = (Ret (VList 0), [], [[]]).
Proof.
  split.
  - exact (proj2 (proj1 (one_or_more_vs_zero_or_more plus_spec "--items" [] []
                           (or_intror eq_refl)) eq_refl)).
  - exact (proj1 (proj2 (one_or_more_vs_zero_or_more star_spec "--items" [] []
                           (or_introl eq_refl)) eq_refl)).
Defined.

(** ** Whole parses on fixed parsers *)

Lemma tokens_of_strs (toks : list string) : tokens_of (VStr <$> toks) = Some toks.
Proof. induction toks as [|t toks IH]; [done|]. cbn. by rewrite IH. Qed.

(** An explicit token list is read from the caller's list object. *)
Lemma _parse_args_impl_explicit (self : ArgumentParser) (argv toks : list string)
    (l : loc) (return_unknown : bool) (σ : store) :
  σ !! l = Some (VStr <$> toks) →
  _parse_args_impl self argv (Some l) return_unknown σ
  = match _parse_args self toks return_unknown σ with
    | (Fail (Raise e), σ') => (Fail (SysExit 2 (Some e)), σ')
    | r => r
    end.
Proof. intros H. unfold _parse_args_impl. by rewrite H, tokens_of_strs. Qed.

(** C4: with [--count] (int, one value, default 0) and the positional
    [name] (str): [--count 3 alice] gives count = 3 and name = alice;
    [alice] gives count = 0 and name = alice; [--count x alice] fails with
    InvalidValue (the process exits with status 2 after reporting it). *)
Theorem count_name_scenario :
  ∃ p, count_name_parser = Ret p ∧
    ∀ (argv : list string) (σ : store) (l : loc),
      (σ !! l = Some [VStr "--count"; VStr "3"; VStr "alice"] →
       parse_args p argv (Some l) σ
       = (Ret {| values := [("count", VInt 3); ("name", VStr "alice")]; unknown := None |}, σ)) ∧
      (σ !! l = Some [VStr "alice"] →
       parse_args p argv (Some l) σ
       = (Ret {| values := [("count", VInt 0); ("name", VStr "alice")]; unknown := None |}, σ)) ∧
      (σ !! l = Some [VStr "--count"; VStr "x"; VStr "alice"] →
       _parse_args p ["--count"; "x"; "alice"] false σ
       = (Fail (Raise (InvalidValue (Some "int") "x" "--count")), σ) ∧
       parse_args p argv (Some l) σ
       = (Fail (SysExit 2 (Some (InvalidValue (Some "int") "x" "--count"))), σ)).
Proof.
  eexists. split; [reflexivity|]. intros argv σ l. unfold parse_args.
  split; [|split].
  - intros H. by rewrite (_parse_args_impl_explicit _ _ ["--count"; "3"; "alice"]).
  - intros H. by rewrite (_parse_args_impl_explicit _ _ ["alice"]).
  - intros H. split; [done|].
    by rewrite (_parse_args_impl_explicit _ _ ["--count"; "x"; "alice"]).
Qed.

Lemma count_name_scenario_witness :
  ∃ p, count_name_parser = Ret p ∧
    parse_args p [] (Some 0%nat) [[VStr "--count"; VStr "3"; VStr "alice"]]
    = (Ret {| values := [("count", VInt 3); ("name", VStr "alice")]; unknown := None |},
       [[VStr "--count"; VStr "3"; VStr "alice"]]) ∧
    parse_args p [] (Some 0%nat) [[VStr "alice"]]
    = (Ret {| values := [("count", VInt 0); ("name", VStr "alice")]; unknown := None |},
       [[VStr "alice"]]) ∧
    parse_args p [] (Some 0%nat) [[VStr "--count"; VStr "x"; VStr "alice"]]
    = (Fail (SysExit 2 (Some (InvalidValue (Some "int") "x" "--count"))),
       [[VStr "--count"; VStr "x"; VStr "alice"]]).
Proof.
  destruct count_name_scenario as (p & Hp & H).
  exists p. split; [exact Hp|]. split; [|split].
  - exact (proj1 (H [] [[VStr "--count"; VStr "3"; VStr "alice"]] 0%nat) eq_refl).
  - exact (proj1 (proj2 (H [] [[VStr "alice"]] 0%nat)) eq_refl).
  - exact (proj2 (proj2 (proj2 (H [] [[VStr "--count"; VStr "x"; VStr "alice"]] 0%nat)) eq_refl)).
Defined.

(** C9: a store_const spec returns its constant whatever the spelling and
    the tokens, and leaves the tokens (and the store) as they are; so
    [--flag x] with one single-token positional binds the flag's dest to the
    constant and the positional's dest to [x]. *)
Theorem store_const_takes_no_token :
  (∀ (self : _Arg) (optname : string) (args : list string) (σ : store),
     action self = "store_const" →
     parse self optname args σ = (Ret (const self), args, σ)) ∧
  (∀ (c : value) (σ : store),
     ∃ p, flag_name_parser c = Ret p ∧
       _parse_args p ["--flag"; "x"] false σ
       = (Ret {| values := [("flag", c); ("name", VStr "x")]; unknown := None |}, σ)) ∧
  (∀ σ : store,
     ∃ p, switch_name_parser = Ret p ∧
       _parse_args p ["--flag"; "x"] false σ
       = (Ret {| values := [("flag", VBool true); ("name", VStr "x")]; unknown := None |}, σ)).
Proof.
  split; [|split].
  - intros. by apply parse_store_const.
  - intros c σ. eexists. split; [reflexivity|]. reflexivity.
  - intros σ. eexists. split; [reflexivity|]. reflexivity.
Qed.

Lemma store_const_takes_no_token_witness :
  parse (mk_Arg ["--flag"] "flag" None py_str "store_const" VNone (VInt 7) VNone false None "")
    "--flag" ["x"; "--y"] [[VStr "z"]]
  = (Ret (VInt 7), ["x"; "--y"], [[VStr "z"]]).
Proof.
  exact (proj1 store_const_takes_no_token
           (mk_Arg ["--flag"] "flag" None py_str "store_const" VNone (VInt 7) VNone false None "")
           "--flag" ["x"; "--y"] [[VStr "z"]] eq_refl).
Defined.

(** ** Tokens are only ever consumed from the front *)

Section Consumption.

Lemma collect_suffix (self : _Arg) (optname : string) (args : list string) :
  ∀ n stop ret o args',
    collect self optname n stop ret args = (o, args') → args' `suffix_of` args.
Proof.
  induction args as [|a rest IH]; intros n stop ret o args'; cbn [collect].
  - by intros [= _ <-].
  - destruct (n =? 0); [by intros [= _ <-]|].
    destruct (stop && dashed a).
    + destruct (String.eqb a "--"); [|by intros [= _ <-]].
      intros H. apply suffix_cons_r. by eapply IH.
    + destruct (_checked self optname a).
      * intros H. apply suffix_cons_r. by eapply IH.
      * intros [= _ <-]. by apply suffix_cons_r.
Qed.

Lemma parse_multi_suffix (self : _Arg) (optname : string) (n : Z)
    (args : list string) (σ : store) o args' σ' :
  parse_multi self optname n args σ = (o, args', σ') → args' `suffix_of` args.
Proof.
  unfold parse_multi.
  destruct (collect self optname n true [] args) as [[[ret n']|f] args1] eqn:E;
    apply collect_suffix in E.
  - destruct (0 <? n'); by intros [= _ <- _].
  - by intros [= _ <- _].
Qed.

Lemma parse_suffix (self : _Arg) (optname : string) (args : list string) (σ : store)
    o args' σ' :
  parse self optname args σ = (o, args', σ') → args' `suffix_of` args.
Proof.
  unfold parse.
  repeat case_match; try (intros [= _ <- _]; subst; (done || by apply suffix_cons_r));
    by apply parse_multi_suffix.
Qed.

Lemma consume_unknown_suffix (args : list string) :
  ∀ unknown unknown' args',
    consume_unknown unknown args = (unknown', args') → args' `suffix_of` args.
Proof.
  induction args as [|a rest IH]; intros unknown unknown' args'; cbn [consume_unknown].
  - by intros [= _ <-].
  - destruct (negb (startswith a "-")); [|by intros [= _ <-]].
    intros H. apply suffix_cons_r. by eapply IH.
Qed.

Lemma scan_suffix (a : string) (opts : list _Arg) :
  ∀ i found arg_vals args σ o args' σ',
    scan a i opts found arg_vals args σ = (o, args', σ') → args' `suffix_of` args.
Proof.
  induction opts as [|opt opts IH]; intros i found arg_vals args σ o args' σ'; cbn [scan].
  - by intros [= _ <- _].
  - destruct (str_in a (names opt)); [|by apply IH].
    destruct (String.eqb (action opt) "append").
    + destruct (arg_vals !! i) as [v0|]; [|by intros [= _ <- _]].
      destruct (is_none v0).
      * cbn. destruct (parse opt a args _) as [[[v|f] args1] σ2] eqn:E;
          apply parse_suffix in E; [|by intros [= _ <- _]].
        intros H. apply IH in H. by etrans.
      * destruct v0; try by intros [= _ <- _].
        destruct (parse opt a args _) as [[[v|f] args1] σ2] eqn:E;
          apply parse_suffix in E; [|by intros [= _ <- _]].
        intros H. apply IH in H. by etrans.
    + destruct (parse opt a args σ) as [[[v|f] args1] σ2] eqn:E;
        apply parse_suffix in E; [|by intros [= _ <- _]].
      case_decide; by intros [= _ <- _].
Qed.

Lemma parse_pos_suffix (poss : list _Arg) :
  ∀ arg_dest arg_vals args σ o args' σ',
    parse_pos poss arg_dest arg_vals args σ = (o, args', σ') → args' `suffix_of` args.
Proof.
  induction poss as [|pos poss IH]; intros arg_dest arg_vals args σ o args' σ'; cbn [parse_pos].
  - by intros [= _ <- _].
  - destruct (names pos) as [|name0 ?]; [by intros [= _ <- _]|].
    destruct (parse pos name0 args σ) as [[[v|f] args1] σ2] eqn:E;
      apply parse_suffix in E; [|by intros [= _ <- _]].
    intros H. apply IH in H. by etrans.
Qed.

End Consumption.

(** ** The loop bound of the model is never reached *)

Section Totality.

(** A failure passed on unchanged is not the loop bound either. *)
Local Ltac carry H := cbn in H |- *; intros [= ->]; by apply H.

Lemma checked_no_fuel (self : _Arg) (optname a : string) :
  _checked self optname a ≠ Fail OutOfFuel.
Proof.
  unfold _checked, convert. destruct (rejected_by_choices self a); [done|].
  by destruct (conv_apply _ _).
Qed.

Lemma parse_no_fuel (self : _Arg) (optname : string) (args : list string) (σ : store) :
  (parse self optname args σ).1.1 ≠ Fail OutOfFuel.
Proof.
  assert (∀ n, (parse_multi self optname n args σ).1.1 ≠ Fail OutOfFuel) as Hm.
  { intros n. unfold parse_multi.
    destruct (collect self optname n true [] args) as [[[ret n']|f] args1] eqn:E.
    - by destruct (0 <? n').
    - destruct (collect_fail _ _ _ _ _ _ _ _ E) as (a & _ & Ha). cbn. intros [= ->].
      by apply checked_no_fuel in Ha. }
  unfold parse, int_of_value.
  repeat case_match; subst; cbn; try done; try apply checked_no_fuel; try apply Hm;
    try (simplify_eq; done).
Qed.

Lemma scan_no_fuel (a : string) (opts : list _Arg) :
  ∀ i found arg_vals args σ, (scan a i opts found arg_vals args σ).1.1 ≠ Fail OutOfFuel.
Proof.
  induction opts as [|opt opts IH]; intros i found arg_vals args σ; cbn [scan]; [done|].
  destruct (str_in a (names opt)); [|by apply IH].
  destruct (String.eqb (action opt) "append").
  - destruct (arg_vals !! i) as [v0|]; [|done].
    destruct (is_none v0).
    + cbn. pose proof (parse_no_fuel opt a args (σ ++ [[]])) as Hp.
      destruct (parse opt a args _) as [[[v|f] args1] σ2]; [apply IH|carry Hp].
    + destruct v0; try done.
      pose proof (parse_no_fuel opt a args σ) as Hp.
      destruct (parse opt a args _) as [[[v|f] args1] σ2]; [apply IH|carry Hp].
  - pose proof (parse_no_fuel opt a args σ) as Hp.
    destruct (parse opt a args σ) as [[[v|f] args1] σ2]; [|carry Hp].
    by case_decide.
Qed.

Lemma parse_pos_no_fuel (poss : list _Arg) :
  ∀ arg_dest arg_vals args σ, (parse_pos poss arg_dest arg_vals args σ).1.1 ≠ Fail OutOfFuel.
Proof.
  induction poss as [|pos poss IH]; intros arg_dest arg_vals args σ; cbn [parse_pos]; [done|].
  destruct (names pos) as [|name0 ?]; [done|].
  pose proof (parse_no_fuel pos name0 args σ) as Hp.
  destruct (parse pos name0 args σ) as [[[v|f] args1] σ2]; [apply IH|carry Hp].
Qed.

(** Every turn of the loop pops a token or enters the positional phase,
    which happens once. *)
Lemma loop_no_fuel (self : ArgumentParser) (return_unknown : bool) (fuel : nat) :
  ∀ (args : list string) (parsed_pos : bool) arg_dest arg_vals unknown σ,
    (List.length args + (if parsed_pos then 1 else 2) ≤ fuel)%nat →
    (loop fuel self return_unknown args parsed_pos arg_dest arg_vals unknown σ).1
    ≠ Fail OutOfFuel.
Proof.
  induction fuel as [|fuel IH]; intros args parsed_pos arg_dest arg_vals unknown σ Hfuel.
  { destruct parsed_pos; lia. }
  cbn [loop]. destruct (negb (bool_decide (args = [])) || negb parsed_pos); [|done].
  destruct (front_option args) as [[a rest]|] eqn:Hfront.
  - destruct args as [|a' rest']; [done|]. cbn in Hfront.
    destruct (looks_named a'); [|done]. injection Hfront as -> ->.
    destruct (str_in a ["-h"; "--help"]); [done|].
    pose proof (scan_no_fuel a (opt self) 0 false arg_vals rest σ) as Hs.
    destruct (scan a 0 (opt self) false arg_vals rest σ)
      as [[[[found arg_vals']|f] args1] σ1] eqn:E; [|carry Hs].
    apply scan_suffix, suffix_length in E. cbn [List.length] in Hfuel.
    destruct found; [apply IH; destruct parsed_pos; lia|].
    destruct return_unknown; [|done].
    destruct (consume_unknown (unknown ++ [a]) args1) as [unknown' args2] eqn:E2.
    apply consume_unknown_suffix, suffix_length in E2.
    apply IH. destruct parsed_pos; lia.
  - destruct parsed_pos; [by destruct return_unknown|].
    pose proof (parse_pos_no_fuel (pos self) arg_dest arg_vals args σ) as Hp.
    destruct (parse_pos (pos self) arg_dest arg_vals args σ)
      as [[[[arg_dest' arg_vals']|f] args1] σ1] eqn:E; [|carry Hp].
    apply parse_pos_suffix, suffix_length in E.
    destruct return_unknown.
    + destruct (consume_unknown unknown args1) as [unknown' args2] eqn:E2.
      apply consume_unknown_suffix, suffix_length in E2. apply IH. lia.
    + apply IH. lia.
Qed.

Lemma required_but_not_used_no_fuel (opts : list _Arg) :
  ∀ i arg_vals, required_but_not_used opts i arg_vals ≠ Fail OutOfFuel.
Proof.
  induction opts as [|arg opts IH]; intros i arg_vals; cbn [required_but_not_used]; [done|].
  destruct (required arg); [|apply IH].
  destruct (arg_vals !! i); [|done].
  specialize (IH (S i) arg_vals).
  destruct (required_but_not_used opts (S i) arg_vals); [done|exact IH].
Qed.

(** [_parse_args] always comes to an end within its loop bound. *)
Lemma _parse_args_total (self : ArgumentParser) (args : list string)
    (return_unknown : bool) (σ : store) :
  (_parse_args self args return_unknown σ).1 ≠ Fail OutOfFuel.
Proof.
  unfold _parse_args.
  pose proof (loop_no_fuel self return_unknown (S (S (List.length args))) args false
                (map dest (opt self)) (map default (opt self)) [] σ ltac:(cbn; lia)) as Hl.
  destruct (loop _ _ _ _ _ _ _ _ _) as [[st|f] σ']; [|carry Hl].
  pose proof (required_but_not_used_no_fuel (opt self) 0 (l_vals st)) as Hr.
  destruct (required_but_not_used _ _ _) as [[|d ds]|f]; [|done|cbn; congruence].
  unfold namedtuple. by case_decide.
Qed.

End Totality.

(** ** The main loop: unknown options in tolerant mode *)

Section UnknownSweep.

Lemma consume_unknown_spec (args : list string) :
  ∀ unknown,
    consume_unknown unknown args
    = (unknown ++ take_while undashed args, drop_while undashed args).
Proof.
  induction args as [|a rest IH]; intros unknown; cbn [consume_unknown take_while drop_while].
  - by rewrite app_nil_r.
  - fold (undashed a). destruct (undashed a); [|by rewrite app_nil_r].
    rewrite IH. by rewrite <- app_assoc.
Qed.

(** The sweep ends at the first token that starts with a dash. *)
Lemma drop_while_undashed_front (args : list string) (t : string) (rest : list string) :
  drop_while undashed args = t :: rest → startswith t "-" = true.
Proof.
  induction args as [|a args IH]; cbn [drop_while]; [done|].
  destruct (undashed a) eqn:E; [done|]. intros [= <- _].
  unfold undashed in E. by destruct (startswith a "-").
Qed.

Lemma scan_no_match (a : string) (opts : list _Arg) :
  Forall (λ s, str_in a (names s) = false) opts →
  ∀ i found arg_vals args σ,
    scan a i opts found arg_vals args σ = (Ret (found, arg_vals), args, σ).
Proof.
  induction 1 as [|opt opts Hopt _ IH]; intros i found arg_vals args σ; cbn [scan]; [done|].
  by rewrite Hopt.
Qed.

End UnknownSweep.

(** C3, as stated, fails: the lone dash does not look like a named-option
    spelling, yet the sweep after an unknown option leaves it (and what
    follows it) in the token list; it then goes to the positional [name]
    and not to the unknown sequence. *)
Lemma sweep_stops_at_lone_dash :
  looks_named "-" = false ∧
  consume_unknown ["--unk"] ["-"; "x"] = (["--unk"], ["-"; "x"]) ∧
  ∃ p, name_parser = Ret p ∧
    _parse_args p ["--unk"; "-"] true []
    = (Ret {| values := [("name", VStr "-")]; unknown := Some ["--unk"] |}, []).
Proof.
  split; [reflexivity|]. split; [reflexivity|].
  eexists. split; reflexivity.
Qed.

(** C3 (amended): in tolerant mode, when the front token looks like a
    named-option spelling, is no help spelling and matches no declared
    spelling, one turn of the loop records it into the unknown sequence
    and also absorbs every immediately-following token that does not start
    with [-]; the sweep stops at the first token that starts with [-]
    (the tokens [-] and [--] included), and the loop resumes there. *)
Theorem unknown_option_sweep (self : ArgumentParser) (fuel : nat) (a : string)
    (rest : list string) (parsed_pos : bool) (arg_dest : list string)
    (arg_vals : list value) (unknown : list string) (σ : store) :
  looks_named a = true → str_in a ["-h"; "--help"] = false →
  Forall (λ s, str_in a (names s) = false) (opt self) →
  loop (S fuel) self true (a :: rest) parsed_pos arg_dest arg_vals unknown σ
  = loop fuel self true (drop_while undashed rest) parsed_pos arg_dest arg_vals
      (unknown ++ a :: take_while undashed rest) σ
  ∧ ∀ t rest', drop_while undashed rest = t :: rest' → startswith t "-" = true.
Proof.
  intros Hnamed Hhelp Hnone. split; [|apply drop_while_undashed_front].
  cbn [loop front_option]. rewrite Hnamed, Hhelp. cbn [bool_decide negb orb].
  rewrite bool_decide_eq_false_2 by done. cbn [negb orb].
  rewrite (scan_no_match a (opt self) Hnone), consume_unknown_spec.
  by rewrite <- app_assoc.
Qed.

Lemma unknown_option_sweep_witness :
  ∃ p, name_parser = Ret p ∧
    loop 5 p true ["--unk"; "x"; "y"; "-"; "z"] false [] [] [] []
    = loop 4 p true ["-"; "z"] false [] [] ["--unk"; "x"; "y"] [].
Proof.
  eexists. split; [reflexivity|].
  refine (proj1 (unknown_option_sweep _ 4 "--unk" ["x"; "y"; "-"; "z"] false [] [] [] []
                   eq_refl eq_refl _)).
  cbn. constructor.
Defined.

(** ** The required check *)

Section RequiredCheck.

(** The scan assigns by index and never changes the number of values. *)
Lemma scan_vals_length (a : string) (opts : list _Arg) :
  ∀ i found arg_vals args σ found' arg_vals' args' σ',
    scan a i opts found arg_vals args σ = (Ret (found', arg_vals'), args', σ') →
    List.length arg_vals' = List.length arg_vals.
Proof.
  induction opts as [|opt opts IH];
    intros i found arg_vals args σ found' arg_vals' args' σ'; cbn [scan].
  - by intros [= _ <- _ _].
  - destruct (str_in a (names opt)); [|by apply IH].
    destruct (String.eqb (action opt) "append").
    + destruct (arg_vals !! i) as [v0|]; [|done].
      destruct (is_none v0).
      * cbn. destruct (parse opt a args _) as [[[v|f] args1] σ2]; [|done].
        intros H. apply IH in H. by rewrite length_insert in H.
      * destruct v0; try done.
        destruct (parse opt a args _) as [[[v|f] args1] σ2]; [|done]. apply IH.
    + destruct (parse opt a args σ) as [[[v|f] args1] σ2]; [|done].
      case_decide; [|done]. intros [= _ <- _ _]. by rewrite length_insert.
Qed.

(** The scan leaves the value of index [i] alone unless the token is a
    spelling of the spec at that index. *)
Lemma scan_untouched (a : string) (opts : list _Arg) (i : nat) :
  ∀ k found arg_vals args σ found' arg_vals' args' σ',
    scan a k opts found arg_vals args σ = (Ret (found', arg_vals'), args', σ') →
    (∀ j s, opts !! j = Some s → (k + j)%nat = i → str_in a (names s) = false) →
    arg_vals' !! i = arg_vals !! i.
Proof.
  induction opts as [|opt opts IH];
    intros k found arg_vals args σ found' arg_vals' args' σ'; cbn [scan].
  - by intros [= _ <- _ _].
  - intros H Hi.
    assert (∀ j s, opts !! j = Some s → (S k + j)%nat = i → str_in a (names s) = false)
      as Hi'.
    { intros j s Hj Hk. apply (Hi (S j) s Hj). lia. }
    destruct (str_in a (names opt)) eqn:Hin; [|by eapply IH].
    assert (k ≠ i) as Hk.
    { intros <-. specialize (Hi 0%nat opt eq_refl ltac:(lia)). congruence. }
    destruct (String.eqb (action opt) "append").
    + destruct (arg_vals !! k) as [v0|]; [|done].
      destruct (is_none v0).
      * cbn in H. destruct (parse opt a args _) as [[[v|f] args1] σ2]; [|done].
        eapply IH in H; [|done]. by rewrite list_lookup_insert_ne in H.
      * destruct v0; try done.
        destruct (parse opt a args _) as [[[v|f] args1] σ2]; [|done]. by eapply IH.
    + destruct (parse opt a args σ) as [[[v|f] args1] σ2]; [|done].
      case_decide; [|done]. injection H as _ <- _ _. by rewrite list_lookup_insert_ne.
Qed.

(** The positional phase appends to the values. *)
Lemma parse_pos_vals (poss : list _Arg) :
  ∀ arg_dest arg_vals args σ arg_dest' arg_vals' args' σ',
    parse_pos poss arg_dest arg_vals args σ = (Ret (arg_dest', arg_vals'), args', σ') →
    ∃ vs, arg_vals' = arg_vals ++ vs.
Proof.
  induction poss as [|pos poss IH];
    intros arg_dest arg_vals args σ arg_dest' arg_vals' args' σ'; cbn [parse_pos].
  - intros [= _ <- _ _]. exists []. by rewrite app_nil_r.
  - destruct (names pos) as [|name0 ?]; [done|].
    destruct (parse pos name0 args σ) as [[[v|f] args1] σ2]; [|done].
    intros H. apply IH in H as [vs ->]. exists (v :: vs). by rewrite <- app_assoc.
Qed.

Lemma front_option_Some (args : list string) (a : string) (rest : list string) :
  front_option args = Some (a, rest) → args = a :: rest ∧ looks_named a = true.
Proof.
  destruct args as [|a' rest']; [done|]. cbn.
  destruct (looks_named a') eqn:E; [|done]. by intros [= <- <-].
Qed.

(** Every spec keeps a value of its own during the loop. *)
Lemma loop_vals_length (self : ArgumentParser) (return_unknown : bool) (fuel : nat) :
  ∀ args parsed_pos arg_dest arg_vals unknown σ st σ',
    loop fuel self return_unknown args parsed_pos arg_dest arg_vals unknown σ = (Ret st, σ') →
    (List.length arg_vals ≤ List.length (l_vals st))%nat.
Proof.
  induction fuel as [|fuel IH];
    intros args parsed_pos arg_dest arg_vals unknown σ st σ'; cbn [loop]; [done|].
  destruct (negb (bool_decide (args = [])) || negb parsed_pos);
    [|by intros [= <- _]].
  destruct (front_option args) as [[a rest]|].
  - destruct (str_in a ["-h"; "--help"]); [done|].
    destruct (scan a 0 (opt self) false arg_vals rest σ)
      as [[[[found arg_vals']|f] args1] σ1] eqn:E; [|done].
    apply scan_vals_length in E. rewrite <- E.
    destruct found; [apply IH|].
    destruct return_unknown; [|done].
    destruct (consume_unknown (unknown ++ [a]) args1) as [unknown' args2]. apply IH.
  - destruct parsed_pos.
    { destruct return_unknown; [|done]. by intros [= <- _]. }
    destruct (parse_pos (pos self) arg_dest arg_vals args σ)
      as [[[[arg_dest' arg_vals']|f] args1] σ1] eqn:E; [|done].
    apply parse_pos_vals in E as [vs ->].
    destruct (if return_unknown then consume_unknown unknown args1 else (unknown, args1))
      as [unknown' args2].
    intros H. apply IH in H. rewrite length_app in H. lia.
Qed.

(** A spec none of whose spellings is among the tokens keeps the value it
    had when the loop was entered. *)
Lemma loop_untouched (self : ArgumentParser) (return_unknown : bool) (i : nat) (s : _Arg)
    (v : value) (fuel : nat) :
  opt self !! i = Some s →
  ∀ args parsed_pos arg_dest arg_vals unknown σ st σ',
    loop fuel self return_unknown args parsed_pos arg_dest arg_vals unknown σ = (Ret st, σ') →
    (∀ a, a ∈ args → str_in a (names s) = false) →
    arg_vals !! i = Some v → l_vals st !! i = Some v.
Proof.
  intros Hs. induction fuel as [|fuel IH];
    intros args parsed_pos arg_dest arg_vals unknown σ st σ'; cbn [loop]; [done|].
  destruct (negb (bool_decide (args = [])) || negb parsed_pos);
    [|by intros [= <- _]].
  destruct (front_option args) as [[a rest]|] eqn:Hfront.
  - apply front_option_Some in Hfront as [-> _].
    destruct (str_in a ["-h"; "--help"]); [done|].
    destruct (scan a 0 (opt self) false arg_vals rest σ)
      as [[[[found arg_vals']|f] args1] σ1] eqn:E; [|done].
    intros H Hargs Hv.
    assert (arg_vals' !! i = Some v) as Hv'.
    { rewrite <- Hv. eapply scan_untouched; [exact E|].
      intros j s' Hj Hij. cbn in Hij. subst j. rewrite Hs in Hj. injection Hj as <-.
      apply Hargs. by left. }
    pose proof (scan_suffix _ _ _ _ _ _ _ _ _ _ E) as [k1 Hk1].
    assert (∀ b, b ∈ args1 → str_in b (names s) = false) as Hargs1.
    { intros b Hb. apply Hargs. right. rewrite Hk1. apply elem_of_app. by right. }
    destruct found; [by eapply IH|].
    destruct return_unknown; [|done].
    destruct (consume_unknown (unknown ++ [a]) args1) as [unknown' args2] eqn:E2.
    apply consume_unknown_suffix in E2 as [k2 Hk2].
    eapply IH; [exact H| |done].
    intros b Hb. apply Hargs1. rewrite Hk2. apply elem_of_app. by right.
  - destruct parsed_pos.
    { destruct return_unknown; [|done]. by intros [= <- _]. }
    destruct (parse_pos (pos self) arg_dest arg_vals args σ)
      as [[[[arg_dest' arg_vals']|f] args1] σ1] eqn:E; [|done].
    intros H Hargs Hv.
    pose proof (parse_pos_suffix _ _ _ _ _ _ _ _ E) as [k1 Hk1].
    apply parse_pos_vals in E as [vs ->].
    assert (∀ b, b ∈ args1 → str_in b (names s) = false) as Hargs1.
    { intros b Hb. apply Hargs. rewrite Hk1. apply elem_of_app. by right. }
    assert ((arg_vals ++ vs) !! i = Some v) as Hv' by by apply lookup_app_l_Some.
    destruct return_unknown.
    + destruct (consume_unknown unknown args1) as [unknown' args2] eqn:E2.
      apply consume_unknown_suffix in E2 as [k2 Hk2].
      eapply IH; [exact H| |done].
      intros b Hb. apply Hargs1. rewrite Hk2. apply elem_of_app. by right.
    + by eapply IH.
Qed.

(** The dests named by the check are those of the required specs whose
    value is [None]. *)
Lemma required_but_not_used_elem (opts : list _Arg) :
  ∀ k arg_vals,
    (k + List.length opts ≤ List.length arg_vals)%nat →
    ∃ ds, required_but_not_used opts k arg_vals = Ret ds ∧
      ∀ d, d ∈ ds ↔
        ∃ j s, opts !! j = Some s ∧ required s = true ∧
               arg_vals !! (k + j)%nat = Some VNone ∧ dest s = d.
Proof.
  induction opts as [|arg opts IH]; intros k arg_vals Hlen; cbn [required_but_not_used].
  - exists []. split; [done|]. intros d. split; [by intros ?%elem_of_nil|].
    by intros (j & s & ? & _).
  - cbn [List.length] in Hlen.
    destruct (IH (S k) arg_vals ltac:(lia)) as (ds & Hds & Hel).
    assert (∀ d, (∃ j s, (arg :: opts) !! j = Some s ∧ required s = true ∧
                         arg_vals !! (k + j)%nat = Some VNone ∧ dest s = d)
                 ↔ (required arg = true ∧ arg_vals !! k = Some VNone ∧ dest arg = d) ∨ d ∈ ds)
      as Hsplit.
    { intros d. rewrite Hel. split.
      - intros ([|j] & s & Hj & Hr & Hv & Hd).
        + left. injection Hj as <-. by rewrite Nat.add_0_r in Hv.
        + right. exists j, s. replace (S k + j)%nat with (k + S j)%nat by lia. done.
      - intros [(Hr & Hv & Hd)|(j & s & Hj & Hr & Hv & Hd)].
        + exists 0%nat, arg. by rewrite Nat.add_0_r.
        + exists (S j), s. replace (k + S j)%nat with (S k + j)%nat by lia. done. }
    destruct (required arg) eqn:Hreq.
    + destruct (lookup_lt_is_Some_2 arg_vals k ltac:(lia)) as [v Hv].
      rewrite Hv, Hds. eexists. split; [done|]. intros d. rewrite Hsplit.
      destruct v; cbn [is_none]; rewrite ?elem_of_cons; intuition congruence.
    + exists ds. split; [done|]. intros d. rewrite Hsplit. intuition congruence.
Qed.

(** When one spec alone is required, the check names it or nothing. *)
Lemma required_but_not_used_single (pre post : list _Arg) (s : _Arg) (v : value) :
  Forall (λ s', required s' = false) pre → Forall (λ s', required s' = false) post →
  required s = true →
  ∀ k arg_vals,
    arg_vals !! (k + List.length pre)%nat = Some v →
    required_but_not_used (pre ++ s :: post) k arg_vals
    = Ret (if is_none v then [dest s] else []).
Proof.
  intros Hpre Hpost Hs.
  assert (∀ k arg_vals, required_but_not_used post k arg_vals = Ret []) as Hp.
  { induction Hpost as [|s' post Hs' _ IH]; intros k arg_vals;
      cbn [required_but_not_used]; [done|]. by rewrite Hs'. }
  induction Hpre as [|s' pre Hs' _ IH]; intros k arg_vals; cbn [app required_but_not_used].
  - cbn [List.length]. rewrite Nat.add_0_r. intros ->. by rewrite Hs, Hp.
  - rewrite Hs'. intros Hv. apply IH. rewrite <- Hv. f_equal. cbn [List.length]. lia.
Qed.

End RequiredCheck.

(** C8: once the consumption loop has come to its end, parsing fails with
    MissingRequired if and only if some named spec with [required = True]
    still has the value [None]; the error names exactly the dests of these
    specs.  In particular a required spec without a default, none of whose
    spellings is among the tokens, triggers MissingRequired with its dest,
    and with its dest alone when no other spec is required. *)
Theorem missing_required_check (self : ArgumentParser) (args : list string)
    (return_unknown : bool) (σ : store) (st : locals) (σ' : store) :
  loop (S (S (List.length args))) self return_unknown args false
    (map dest (opt self)) (map default (opt self)) [] σ = (Ret st, σ') →
  ((∃ ds, _parse_args self args return_unknown σ = (Fail (Raise (MissingRequired ds)), σ'))
   ↔ ∃ i s, opt self !! i = Some s ∧ required s = true ∧ l_vals st !! i = Some VNone) ∧
  (∀ ds, _parse_args self args return_unknown σ = (Fail (Raise (MissingRequired ds)), σ') →
     ∀ d, d ∈ ds ↔
       ∃ i s, opt self !! i = Some s ∧ required s = true ∧ l_vals st !! i = Some VNone ∧
              dest s = d) ∧
  (∀ i s, opt self !! i = Some s → required s = true → default s = VNone →
     (∀ a, a ∈ args → str_in a (names s) = false) →
     ∃ ds, _parse_args self args return_unknown σ = (Fail (Raise (MissingRequired ds)), σ') ∧
       dest s ∈ ds ∧
       ((∀ j s', opt self !! j = Some s' → required s' = true → j = i) → ds = [dest s])).
Proof.
  intros Hloop.
  pose proof (loop_vals_length _ _ _ _ _ _ _ _ _ _ _ Hloop) as Hlen.
  rewrite length_map in Hlen.
  destruct (required_but_not_used_elem (opt self) 0 (l_vals st) ltac:(cbn; lia))
    as (ds0 & Hds0 & Hel).
  assert (_parse_args self args return_unknown σ
          = match ds0 with
            | [] => match namedtuple (l_dest st) (l_vals st) with
                    | Ret vs => (Ret {| values := vs;
                                        unknown := if return_unknown
                                                   then Some (l_unknown st) else None |}, σ')
                    | Fail f => (Fail f, σ')
                    end
            | _ :: _ => (Fail (Raise (MissingRequired ds0)), σ')
            end) as Hrun.
  { unfold _parse_args. rewrite Hloop, Hds0. by destruct ds0. }
  assert (∀ ds, _parse_args self args return_unknown σ
                = (Fail (Raise (MissingRequired ds)), σ') → ds = ds0 ∧ ds0 ≠ []) as Hinv.
  { intros ds. rewrite Hrun. destruct ds0 as [|d0 ds0'].
    - unfold namedtuple. case_decide; done.
    - by intros [= <-]. }
  split; [|split].
  - split.
    + intros [ds Hds]. apply Hinv in Hds as [-> Hne].
      destruct ds0 as [|d0 ds0']; [done|].
      destruct (proj1 (Hel d0) ltac:(by left)) as (j & s & Hj & Hr & Hv & _).
      by exists j, s.
    + intros (i & s & Hi & Hr & Hv).
      assert (dest s ∈ ds0) as Hin by (apply Hel; by exists i, s).
      exists ds0. rewrite Hrun. destruct ds0; [by apply elem_of_nil in Hin|done].
  - intros ds Hds d. apply Hinv in Hds as [-> _]. rewrite Hel. split.
    + intros (j & s & Hj & Hr & Hv & Hd). by exists j, s.
    + intros (j & s & Hj & Hr & Hv & Hd). by exists j, s.
  - intros i s Hi Hr Hdef Hargs.
    assert (l_vals st !! i = Some VNone) as Hv.
    { eapply loop_untouched; [exact Hi|exact Hloop|exact Hargs|].
      by rewrite list_lookup_fmap, Hi, <- Hdef. }
    assert (dest s ∈ ds0) as Hin by (apply Hel; by exists i, s).
    exists ds0. split; [|split; [done|]].
    + rewrite Hrun. destruct ds0; [by apply elem_of_nil in Hin|done].
    + intros Huniq.
      pose proof (take_drop_middle _ _ _ Hi) as Hmid.
      assert (Forall (λ s', required s' = false) (take i (opt self))) as Hpre.
      { apply Forall_forall. intros s' [j Hj]%list_elem_of_lookup.
        destruct (required s') eqn:E; [|done].
        pose proof (lookup_lt_Some _ _ _ Hj) as Hlt. rewrite length_take in Hlt.
        rewrite lookup_take_lt in Hj by lia. specialize (Huniq j s' Hj E). lia. }
      assert (Forall (λ s', required s' = false) (drop (S i) (opt self))) as Hpost.
      { apply Forall_forall. intros s' [j Hj]%list_elem_of_lookup.
        destruct (required s') eqn:E; [|done].
        rewrite lookup_drop in Hj. specialize (Huniq _ s' Hj E). lia. }
      pose proof (required_but_not_used_single _ _ s VNone Hpre Hpost Hr 0 (l_vals st)) as Hone.
      rewrite Hmid in Hone.
      rewrite length_take_le in Hone by (apply Nat.lt_le_incl; by eapply lookup_lt_Some).
      specialize (Hone Hv). rewrite Hds0 in Hone. by injection Hone.
Qed.

Lemma missing_required_check_witness :
  required_out_parser = Ret out_parser ∧
  _parse_args out_parser [] false [] = (Fail (Raise (MissingRequired ["out"])), []).
Proof.
  split; [reflexivity|].
  destruct (missing_required_check out_parser [] false []
              {| l_dest := ["out"]; l_vals := [VNone]; l_unknown := [] |} [] eq_refl)
    as (_ & _ & H).
  destruct (H 0%nat out_spec eq_refl eq_refl eq_refl) as (ds & Hds & _ & Huniq).
  { intros a Ha. by apply elem_of_nil in Ha. }
  rewrite Hds, Huniq; [reflexivity|].
  intros [|j] s' Hj _; [done|]. by destruct j.
Defined.

(** ** Tolerant mode: one unknown option after a valid command line *)

Section TrailingUnknown.

Variable U : string.
Hypothesis U_named : looks_named U = true.

Lemma U_dashed : dashed U = true.
Proof.
  unfold looks_named in U_named. unfold dashed.
  destruct (startswith U "-"), (String.eqb U "-"); done.
Qed.

Lemma U_not_separator : String.eqb U "--" = false.
Proof.
  unfold looks_named in U_named.
  destruct (String.eqb U "--"); [|done]. by rewrite andb_false_r in U_named.
Qed.

Lemma U_not_undashed : undashed U = false.
Proof.
  unfold looks_named in U_named. unfold undashed.
  by destruct (startswith U "-").
Qed.

(** The value loop stops in front of [U]. *)
Lemma collect_app (self : _Arg) (optname : string) (args : list string) :
  "--" ∉ args →
  ∀ n ret ret' n' args',
    collect self optname n true ret args = (Ret (ret', n'), args') →
    collect self optname n true ret (args ++ [U]) = (Ret (ret', n'), args' ++ [U]).
Proof.
  induction args as [|a rest IH]; intros Hsep n ret ret' n' args'; cbn [collect app].
  - intros [= <- <- <-]. rewrite U_dashed, U_not_separator. cbn [andb app].
    by destruct (n =? 0).
  - apply not_elem_of_cons in Hsep as [Ha Hrest].
    destruct (n =? 0); [by intros [= <- <- <-]|].
    destruct (true && dashed a).
    + destruct (String.eqb_spec a "--") as [->|_]; [done|]. by intros [= <- <- <-].
    + destruct (_checked self optname a); [|done]. by apply IH.
Qed.

Lemma parse_multi_app (self : _Arg) (optname : string) (n : Z) (args : list string)
    (σ : store) (v : value) (args' : list string) (σ' : store) :
  "--" ∉ args →
  parse_multi self optname n args σ = (Ret v, args', σ') →
  parse_multi self optname n (args ++ [U]) σ = (Ret v, args' ++ [U], σ').
Proof.
  intros Hsep. unfold parse_multi.
  destruct (collect self optname n true [] args) as [[[ret n']|f] args1] eqn:E; [|done].
  rewrite (collect_app _ _ _ Hsep _ _ _ _ _ E).
  destruct (0 <? n'); [done|]. cbn. by intros [= <- <- <-].
Qed.

(** A spec whose arity is not zero-or-one takes from [args ++ [U]] what
    it takes from [args]. *)
Lemma parse_app (self : _Arg) (optname : string) (args : list string)
    (σ : store) (v : value) (args' : list string) (σ' : store) :
  optional_arity self = false → "--" ∉ args →
  parse self optname args σ = (Ret v, args', σ') →
  parse self optname (args ++ [U]) σ = (Ret v, args' ++ [U], σ').
Proof.
  intros Hopt Hsep. unfold parse. unfold optional_arity in Hopt.
  destruct (String.eqb (action self) "store" || String.eqb (action self) "append").
  - cbn [andb] in Hopt. rewrite Hopt.
    destruct (is_none (nargs self)).
    { destruct args as [|a rest]; [done|]. cbn [app]. by intros [= <- <- <-]. }
    destruct (str_eq_value "*" (nargs self)); [by apply parse_multi_app|].
    destruct (str_eq_value "+" (nargs self)).
    { destruct args as [|a rest]; [done|]. cbn [app].
      by apply (parse_multi_app _ _ _ (a :: rest)). }
    destruct (int_of_value (nargs self)); [by apply parse_multi_app|done].
  - destruct (String.eqb (action self) "store_const"); [|done]. by intros [= <- <- <-].
Qed.

Lemma not_sep_suffix (args args' : list string) :
  args' `suffix_of` args → "--" ∉ args → "--" ∉ args'.
Proof. intros [k ->] H Hin. apply H, elem_of_app. by right. Qed.

Lemma scan_app (a : string) (opts : list _Arg) :
  Forall (λ s, optional_arity s = false) opts →
  ∀ i found arg_vals args σ found' arg_vals' args' σ',
    "--" ∉ args →
    scan a i opts found arg_vals args σ = (Ret (found', arg_vals'), args', σ') →
    scan a i opts found arg_vals (args ++ [U]) σ = (Ret (found', arg_vals'), args' ++ [U], σ').
Proof.
  induction 1 as [|opt opts Hopt _ IH];
    intros i found arg_vals args σ found' arg_vals' args' σ' Hsep; cbn [scan].
  - by intros [= <- <- <- <-].
  - destruct (str_in a (names opt)); [|by apply IH].
    destruct (String.eqb (action opt) "append").
    + destruct (arg_vals !! i) as [v0|]; [|done].
      destruct (is_none v0).
      * cbn. destruct (parse opt a args _) as [[[v|f] args1] σ2] eqn:E; [|done].
        rewrite (parse_app _ _ _ _ _ _ _ Hopt Hsep E).
        apply IH. eapply not_sep_suffix; [|done]. by eapply parse_suffix.
      * destruct v0; try done.
        destruct (parse opt a args _) as [[[v|f] args1] σ2] eqn:E; [|done].
        rewrite (parse_app _ _ _ _ _ _ _ Hopt Hsep E).
        apply IH. eapply not_sep_suffix; [|done]. by eapply parse_suffix.
    + destruct (parse opt a args σ) as [[[v|f] args1] σ2] eqn:E; [|done].
      rewrite (parse_app _ _ _ _ _ _ _ Hopt Hsep E).
      case_decide; [|done]. by intros [= <- <- <- <-].
Qed.

Lemma parse_pos_app (poss : list _Arg) :
  Forall (λ s, optional_arity s = false) poss →
  ∀ arg_dest arg_vals args σ arg_dest' arg_vals' args' σ',
    "--" ∉ args →
    parse_pos poss arg_dest arg_vals args σ = (Ret (arg_dest', arg_vals'), args', σ') →
    parse_pos poss arg_dest arg_vals (args ++ [U]) σ
    = (Ret (arg_dest', arg_vals'), args' ++ [U], σ').
Proof.
  induction 1 as [|pos poss Hopt _ IH];
    intros arg_dest arg_vals args σ arg_dest' arg_vals' args' σ' Hsep; cbn [parse_pos].
  - by intros [= <- <- <- <-].
  - destruct (names pos) as [|name0 ?]; [done|].
    destruct (parse pos name0 args σ) as [[[v|f] args1] σ2] eqn:E; [|done].
    rewrite (parse_app _ _ _ _ _ _ _ Hopt Hsep E).
    apply IH. eapply not_sep_suffix; [|done]. by eapply parse_suffix.
Qed.

Variable self : ArgumentParser.
Hypothesis U_no_help : str_in U ["-h"; "--help"] = false.
Hypothesis U_unknown : Forall (λ s, str_in U (names s) = false) (opt self).
Hypothesis no_optional : Forall (λ s, optional_arity s = false) (opt self ++ pos self).

(** One turn of the loop. *)
Lemma loop_S (fuel : nat) (return_unknown : bool) (args : list string) (parsed_pos : bool)
    (arg_dest : list string) (arg_vals : list value) (unknown : list string) (σ : store) :
  loop (S fuel) self return_unknown args parsed_pos arg_dest arg_vals unknown σ
  = if negb (bool_decide (args = [])) || negb parsed_pos then
      match front_option args with
      | Some (a, rest) =>
        if str_in a ["-h"; "--help"] then (Fail (SysExit 0 None), σ)
        else
          match scan a 0 (opt self) false arg_vals rest σ with
          | (Ret (found, arg_vals'), args', σ') =>
            if found then
              loop fuel self return_unknown args' parsed_pos arg_dest arg_vals' unknown σ'
            else if return_unknown then
              let '(unknown', args'') := consume_unknown (unknown ++ [a]) args' in
              loop fuel self return_unknown args'' parsed_pos arg_dest arg_vals' unknown' σ'
            else (Fail (Raise (UnknownOption a)), σ')
          | (Fail f, _, σ') => (Fail f, σ')
          end
      | None =>
        if parsed_pos then
          if return_unknown
          then (Ret {| l_dest := arg_dest; l_vals := arg_vals;
                       l_unknown := unknown ++ args |}, σ)
          else (Fail (Raise (ExtraArguments args)), σ)
        else
          match parse_pos (pos self) arg_dest arg_vals args σ with
          | (Ret (arg_dest', arg_vals'), args', σ') =>
            let '(unknown', args'') :=
              if return_unknown then consume_unknown unknown args' else (unknown, args') in
            loop fuel self return_unknown args'' true arg_dest' arg_vals' unknown' σ'
          | (Fail f, _, σ') => (Fail f, σ')
          end
      end
    else (Ret {| l_dest := arg_dest; l_vals := arg_vals; l_unknown := unknown |}, σ).
Proof. reflexivity. Qed.

(** One turn of the tolerant loop on [U] alone moves it to [unknown]. *)
Lemma loop_on_U (fuel : nat) (parsed_pos : bool) (arg_dest : list string)
    (arg_vals : list value) (σ : store) :
  loop (S fuel) self true [U] parsed_pos arg_dest arg_vals [] σ
  = loop fuel self true [] parsed_pos arg_dest arg_vals [U] σ.
Proof.
  cbn [loop front_option]. rewrite U_named, U_no_help.
  rewrite bool_decide_eq_false_2 by done. cbn [negb orb].
  by rewrite (scan_no_match U (opt self) U_unknown).
Qed.

(** The sweep takes nothing from a token list that goes on strictly
    after the positional phase. *)
Lemma strict_after_pos (fuel : nat) (args : list string) (arg_dest : list string)
    (arg_vals : list value) (σ : store) (st : locals) (σ' : store) :
  loop fuel self false args true arg_dest arg_vals [] σ = (Ret st, σ') →
  consume_unknown [] (args ++ [U]) = ([], args ++ [U]).
Proof.
  destruct fuel as [|fuel]; [done|]. cbn [loop].
  destruct args as [|a rest].
  - intros _. cbn [app consume_unknown]. fold (undashed U). by rewrite U_not_undashed.
  - rewrite bool_decide_eq_false_2 by done. cbn [negb orb front_option].
    destruct (looks_named a) eqn:Ha; [|done]. intros _. cbn [app consume_unknown].
    fold (undashed a). unfold looks_named in Ha. unfold undashed.
    by destruct (startswith a "-").
Qed.

(** The strict loop on [args] and the tolerant loop on [args ++ [U]] end
    with the same dests and values, [U] being the one unknown token. *)
Lemma loop_app (fuel : nat) :
  ∀ args parsed_pos arg_dest arg_vals σ st σ',
    "--" ∉ args →
    loop fuel self false args parsed_pos arg_dest arg_vals [] σ = (Ret st, σ') →
    loop (S fuel) self true (args ++ [U]) parsed_pos arg_dest arg_vals [] σ
    = (Ret {| l_dest := l_dest st; l_vals := l_vals st; l_unknown := [U] |}, σ').
Proof.
  apply Forall_app in no_optional as [Hopt Hpos].
  induction fuel as [|fuel IH]; intros args parsed_pos arg_dest arg_vals σ st σ' Hsep; [done|].
  intros Hstrict. cbn [loop] in Hstrict.
  destruct args as [|a rest].
  - (* nothing is left for the strict parser *)
    cbn [app]. rewrite loop_on_U.
    destruct parsed_pos.
    + cbn in Hstrict. injection Hstrict as <- <-. by cbn.
    + cbn [bool_decide negb orb front_option] in Hstrict.
      rewrite bool_decide_eq_true_2 in Hstrict by done. cbn [negb orb] in Hstrict.
      destruct (parse_pos (pos self) arg_dest arg_vals [] σ)
        as [[[[arg_dest' arg_vals']|f] args1] σ1] eqn:E; [|done].
      pose proof (parse_pos_suffix _ _ _ _ _ _ _ _ E) as ->%suffix_nil_inv.
      cbn [loop front_option]. rewrite bool_decide_eq_true_2 by done. cbn [negb orb].
      rewrite E. cbn [consume_unknown].
      destruct fuel as [|fuel']; [done|].
      cbn in Hstrict. injection Hstrict as <- <-. by cbn.
  - rewrite bool_decide_eq_false_2 in Hstrict by done. cbn [negb orb] in Hstrict.
    cbn [app]. rewrite loop_S.
    rewrite bool_decide_eq_false_2 by done. cbn [negb orb].
    cbn [front_option] in Hstrict |- *.
    destruct (looks_named a) eqn:Ha.
    + (* a named option, found by the strict parser *)
      destruct (str_in a ["-h"; "--help"]); [done|].
      destruct (scan a 0 (opt self) false arg_vals rest σ)
        as [[[[found arg_vals']|f] args1] σ1] eqn:E; [|done].
      destruct found; [|done].
      apply not_elem_of_cons in Hsep as [_ Hrest].
      rewrite (scan_app a (opt self) Hopt _ _ _ _ _ _ _ _ _ Hrest E).
      apply IH; [|done]. eapply not_sep_suffix; [|done]. by eapply scan_suffix.
    + (* the positional phase *)
      destruct parsed_pos; [done|].
      destruct (parse_pos (pos self) arg_dest arg_vals (a :: rest) σ)
        as [[[[arg_dest' arg_vals']|f] args1] σ1] eqn:E; [|done].
      pose proof (parse_pos_app (pos self) Hpos _ _ (a :: rest) _ _ _ _ _ Hsep E) as E'.
      cbn [app] in E'. rewrite E'.
      rewrite (strict_after_pos _ _ _ _ _ _ _ Hstrict).
      apply IH; [|done]. eapply not_sep_suffix; [|done]. by eapply parse_pos_suffix.
Qed.

(** The same, for [_parse_args]. *)
Lemma _parse_args_app (T : list string) (σ : store) (r : parsed) (σ' : store) :
  "--" ∉ T →
  _parse_args self T false σ = (Ret r, σ') →
  _parse_args self (T ++ [U]) true σ
  = (Ret {| values := values r; unknown := Some [U] |}, σ').
Proof.
  intros Hsep. unfold _parse_args.
  destruct (loop (S (S (List.length T))) self false T false _ _ [] σ)
    as [[st|f] σ1] eqn:E; [|done].
  rewrite length_app. cbn [List.length]. rewrite Nat.add_1_r.
  rewrite (loop_app _ _ _ _ _ _ _ _ Hsep E). cbn [l_vals l_dest l_unknown].
  destruct (required_but_not_used (opt self) 0 (l_vals st)) as [[|d ds]|f]; [|done..].
  destruct (namedtuple (l_dest st) (l_vals st)) as [vs|f]; [|done].
  by intros [= <- <-].
Qed.

End TrailingUnknown.

(** C5, as stated, fails: [--opt] has arity zero-or-one and there is no
    positional spec; [--opt] alone parses strictly, with the default as its
    value, but with the undeclared [--unk] appended the tolerant parse
    gives [--unk] to [--opt] as its value and leaves nothing unknown. *)
Lemma trailing_unknown_taken_as_value :
  ∃ p, optional_value_parser = Ret p ∧
    pos p = [] ∧ Forall (λ s, str_in "--unk" (names s) = false) (opt p) ∧
    let σ := [[VStr "--opt"]; [VStr "--opt"; VStr "--unk"]] in
    parse_args p [] (Some 0%nat) σ
    = (Ret {| values := [("opt", VNone)]; unknown := None |}, σ) ∧
    parse_known_args p [] (Some 1%nat) σ
    = (Ret {| values := [("opt", VStr "--unk")]; unknown := Some [] |}, σ) ∧
    parse_known_args p [] (Some 1%nat) σ
    ≠ (Ret {| values := [("opt", VNone)]; unknown := Some ["--unk"] |}, σ).
Proof.
  eexists. split; [reflexivity|]. split; [reflexivity|].
  split; [by repeat constructor|]. cbn zeta.
  split; [reflexivity|]. split; [reflexivity|]. discriminate.
Qed.

(** Two more ways in which the appended token is not left over: after a
    literal [--] a zero-or-more extraction collects it, and a help spelling
    ends the process. *)
Example trailing_unknown_after_separator :
  ∃ p, items_parser = Ret p ∧
    _parse_args p ["--items"; "--"] false []
    = (Ret {| values := [("items", VList 0)]; unknown := None |}, [[]]) ∧
    _parse_args p ["--items"; "--"; "--unk"] true []
    = (Ret {| values := [("items", VList 0)]; unknown := Some [] |}, [[VStr "--unk"]]).
Proof. eexists. repeat split. Qed.

Example trailing_help_exits :
  _parse_args count_name ["alice"] false []
  = (Ret {| values := [("count", VInt 0); ("name", VStr "alice")]; unknown := None |}, []) ∧
  _parse_args count_name ["alice"; "--help"] true [] = (Fail (SysExit 0 None), []).
Proof. by split. Qed.

(** C5 (amended): let the strict parse of the tokens [T] succeed with
    record [R]; let [U] look like a named-option spelling, be no help
    spelling and match no declared spelling; let no spec take its value
    with arity zero-or-one and let [T] hold no literal [--].  Then
    [parse_known_args] on [T + [U]] returns [R] and the leftover [[U]]
    (and leaves the store as the strict parse does). *)
Theorem tolerant_round_trip (self : ArgumentParser) (argv T : list string) (U : string)
    (lT lTU : loc) (σ σ' : store) (r : parsed) :
  looks_named U = true → str_in U ["-h"; "--help"] = false →
  Forall (λ s, str_in U (names s) = false) (opt self) →
  Forall (λ s, optional_arity s = false) (opt self ++ pos self) →
  "--" ∉ T →
  σ !! lT = Some (VStr <$> T) → σ !! lTU = Some (VStr <$> (T ++ [U])) →
  parse_args self argv (Some lT) σ = (Ret r, σ') →
  unknown r = None ∧
  parse_known_args self argv (Some lTU) σ
  = (Ret {| values := values r; unknown := Some [U] |}, σ').
Proof.
  intros HU Hhelp Hunk Hopt Hsep HT HTU. unfold parse_args, parse_known_args.
  rewrite (_parse_args_impl_explicit _ _ T) by done.
  rewrite (_parse_args_impl_explicit _ _ (T ++ [U])) by done.
  destruct (_parse_args self T false σ) as [[r0|f] σ0] eqn:E; [|by destruct f].
  intros [= -> ->]. split.
  - unfold _parse_args in E.
    destruct (loop _ _ _ _ _ _ _ _ _) as [[st|f] σ1]; [|done].
    destruct (required_but_not_used _ _ _) as [[|d ds]|f]; [|done..].
    destruct (namedtuple _ _); [|done]. by injection E as <- _.
  - by rewrite (_parse_args_app U HU self Hhelp Hunk Hopt T σ r σ' Hsep E).
Qed.

Lemma tolerant_round_trip_witness :
  count_name_parser = Ret count_name ∧
  let σ := [[VStr "--count"; VStr "3"; VStr "alice"];
            [VStr "--count"; VStr "3"; VStr "alice"; VStr "--verbose"]] in
  parse_known_args count_name [] (Some 1%nat) σ
  = (Ret {| values := [("count", VInt 3); ("name", VStr "alice")];
            unknown := Some ["--verbose"] |}, σ).
Proof.
  split; [reflexivity|]. cbn zeta.
  refine (proj2 (tolerant_round_trip count_name [] ["--count"; "3"; "alice"] "--verbose"
                   0%nat 1%nat
                   [[VStr "--count"; VStr "3"; VStr "alice"];
                    [VStr "--count"; VStr "3"; VStr "alice"; VStr "--verbose"]]
                   [[VStr "--count"; VStr "3"; VStr "alice"];
                    [VStr "--count"; VStr "3"; VStr "alice"; VStr "--verbose"]]
                   {| values := [("count", VInt 3); ("name", VStr "alice")]; unknown := None |}
                   eq_refl eq_refl _ _ _ eq_refl eq_refl eq_refl)).
  - by repeat constructor.
  - by repeat constructor.
  - intros H. repeat (apply elem_of_cons in H as [H|H]; [discriminate|]).
    by apply elem_of_nil in H.
Defined.

(** ** What a parse writes to the store *)

Section Frame.

Variable l : loc.

Lemma keeps_refl (σ : store) : keeps l σ σ.
Proof. by split. Qed.

Lemma keeps_trans (σ1 σ2 σ3 : store) : keeps l σ1 σ2 → keeps l σ2 σ3 → keeps l σ1 σ3.
Proof. intros [H1 E1] [H2 E2]. split; [lia|]. by rewrite E2. Qed.

Lemma keeps_alloc (σ : store) (vs : list value) :
  (l < List.length σ)%nat → keeps l σ (alloc σ vs).2.
Proof.
  intros Hl. split; cbn.
  - rewrite length_app. lia.
  - by rewrite lookup_app_l.
Qed.

Lemma keeps_append (σ : store) (l1 : loc) (v : value) :
  l1 ≠ l → keeps l σ (store_append σ l1 v).
Proof.
  intros Hne. unfold store_append. split.
  - by rewrite length_alter.
  - by rewrite list_lookup_alter_ne.
Qed.

Lemma keeps_lt (σ σ' : store) : keeps l σ σ' → (l < List.length σ)%nat → (l < List.length σ')%nat.
Proof. intros [H _] ?. lia. Qed.

(** A value extraction only allocates. *)
Lemma parse_keeps (self : _Arg) (optname : string) (args : list string) (σ : store)
    r args' σ' :
  (l < List.length σ)%nat →
  parse self optname args σ = (r, args', σ') → keeps l σ σ'.
Proof.
  intros Hl.
  assert (∀ n, parse_multi self optname n args σ = (r, args', σ') → keeps l σ σ') as Hm.
  { intros n. unfold parse_multi.
    destruct (collect self optname n true [] args) as [[[ret n']|f] args1].
    - destruct (0 <? n'); intros [= _ _ <-]; [apply keeps_refl|by apply keeps_alloc].
    - intros [= _ _ <-]. apply keeps_refl. }
  unfold parse.
  repeat case_match; try (intros [= _ _ <-]; apply keeps_refl); apply Hm.
Qed.

(** The scan writes to the lists its append specs hold, and allocates. *)
Lemma scan_keeps (a : string) (opts0 : list _Arg) (opts : list _Arg) :
  ∀ k found arg_vals args σ r args' σ',
    (∀ j, opts !! j = opts0 !! (k + j)%nat) →
    (l < List.length σ)%nat →
    not_appended_to l opts0 arg_vals →
    scan a k opts found arg_vals args σ = (r, args', σ') →
    keeps l σ σ' ∧
    ∀ found' arg_vals', r = Ret (found', arg_vals') → not_appended_to l opts0 arg_vals'.
Proof.
  induction opts as [|opt opts IH];
    intros k found arg_vals args σ r args' σ' Hlink Hl Hc; cbn [scan].
  { intros [= <- _ <-]. split; [apply keeps_refl|]. by intros ? ? [= _ <-]. }
  assert (opts0 !! k = Some opt) as Hk.
  { specialize (Hlink 0%nat). by rewrite Nat.add_0_r in Hlink. }
  assert (∀ j, opts !! j = opts0 !! (S k + j)%nat) as Hlink'.
  { intros j. replace (S k + j)%nat with (k + S j)%nat by lia. by rewrite <- Hlink. }
  destruct (str_in a (names opt)); [|by apply IH].
  destruct (String.eqb_spec (action opt) "append") as [Happ|Hnapp].
  - destruct (arg_vals !! k) as [v0|] eqn:Hv0;
      [|intros [= <- _ <-]; split; [apply keeps_refl|done]].
    assert ((∃ l1 arg_vals1 σ1,
                (if is_none v0
                 then let '(l, σ1) := alloc σ [] in (VList l, <[k := VList l]> arg_vals, σ1)
                 else (v0, arg_vals, σ)) = (VList l1, arg_vals1, σ1)
                ∧ l1 ≠ l ∧ keeps l σ σ1 ∧ not_appended_to l opts0 arg_vals1)
            ∨ (∃ σ1, (if is_none v0
                      then let '(l, σ1) := alloc σ [] in
                           (VList l, <[k := VList l]> arg_vals, σ1)
                      else (v0, arg_vals, σ)) = (v0, arg_vals, σ1)
                     ∧ σ1 = σ ∧ ∀ l1, v0 ≠ VList l1)) as Hprep.
    { destruct v0; cbn [is_none].
      - left. eexists _, _, _. split; [reflexivity|]. split; [lia|].
        split; [by apply keeps_alloc|].
        intros i s Hi Hs. destruct (decide (i = k)) as [->|Hik].
        + rewrite list_lookup_insert_eq by by eapply lookup_lt_Some.
          intros [= E]. lia.
        + rewrite list_lookup_insert_ne by done. exact (Hc i s Hi Hs).
      - right. by exists σ.
      - right. by exists σ.
      - right. by exists σ.
      - left. eexists _, _, _. split; [reflexivity|]. split; [|split; [apply keeps_refl|done]].
        intros ->. exact (Hc k opt Hk Happ Hv0). }
    destruct Hprep as [(l1 & arg_vals1 & σ1 & -> & Hl1 & Hk1 & Hc1)|(σ1 & -> & -> & Hnl)].
    + destruct (parse opt a args σ1) as [[[v|f] args1] σ2] eqn:E;
        apply parse_keeps in E; [| by eapply keeps_lt | | by eapply keeps_lt].
      * intros H. apply IH in H as [Hk3 Hc3]; [|done| |done].
        -- split; [|done]. eapply keeps_trans; [exact Hk1|].
           eapply keeps_trans; [exact E|]. eapply keeps_trans; [|exact Hk3].
           by apply keeps_append.
        -- eapply keeps_lt; [by apply keeps_append|]. eapply keeps_lt; [exact E|].
           by eapply keeps_lt.
      * intros [= <- _ <-]. split; [by eapply keeps_trans|done].
    + destruct v0; try (intros [= <- _ <-]; split; [apply keeps_refl|done]).
      by destruct (Hnl l0).
  - destruct (parse opt a args σ) as [[[v|f] args1] σ2] eqn:E;
      apply parse_keeps in E; [|done| |done].
    + case_decide; intros [= <- _ <-]; (split; [done|]); [|done].
      intros ? ? [= _ <-] i s Hi Hs. destruct (decide (i = k)) as [->|Hik].
      * rewrite Hk in Hi. injection Hi as <-. done.
      * rewrite list_lookup_insert_ne by done. exact (Hc i s Hi Hs).
    + intros [= <- _ <-]. by split.
Qed.

Lemma parse_pos_keeps (poss : list _Arg) :
  ∀ arg_dest arg_vals args σ r args' σ',
    (l < List.length σ)%nat →
    parse_pos poss arg_dest arg_vals args σ = (r, args', σ') → keeps l σ σ'.
Proof.
  induction poss as [|pos poss IH]; intros arg_dest arg_vals args σ r args' σ' Hl;
    cbn [parse_pos].
  - intros [= _ _ <-]. apply keeps_refl.
  - destruct (names pos) as [|name0 ?]; [intros [= _ _ <-]; apply keeps_refl|].
    destruct (parse pos name0 args σ) as [[[v|f] args1] σ2] eqn:E;
      apply parse_keeps in E; [|done| |done].
    + intros H. apply IH in H; [|by eapply keeps_lt]. by eapply keeps_trans.
    + by intros [= _ _ <-].
Qed.

Lemma not_appended_to_app (opts : list _Arg) (arg_vals vs : list value) :
  (List.length opts ≤ List.length arg_vals)%nat →
  not_appended_to l opts arg_vals → not_appended_to l opts (arg_vals ++ vs).
Proof.
  intros Hlen Hc i s Hi Hs.
  rewrite lookup_app_l by (apply lookup_lt_Some in Hi; lia). by apply (Hc i s).
Qed.

(** The loop, however it ends, leaves the list object at [l] as it was. *)
Lemma loop_keeps (self : ArgumentParser) (return_unknown : bool) (fuel : nat) :
  ∀ args parsed_pos arg_dest arg_vals unknown σ r σ',
    (l < List.length σ)%nat →
    (List.length (opt self) ≤ List.length arg_vals)%nat →
    not_appended_to l (opt self) arg_vals →
    loop fuel self return_unknown args parsed_pos arg_dest arg_vals unknown σ = (r, σ') →
    keeps l σ σ'.
Proof.
  induction fuel as [|fuel IH];
    intros args parsed_pos arg_dest arg_vals unknown σ r σ' Hl Hlen Hc; cbn [loop].
  { intros [= _ <-]. apply keeps_refl. }
  destruct (negb (bool_decide (args = [])) || negb parsed_pos);
    [|intros [= _ <-]; apply keeps_refl].
  destruct (front_option args) as [[a rest]|].
  - destruct (str_in a ["-h"; "--help"]); [intros [= _ <-]; apply keeps_refl|].
    destruct (scan a 0 (opt self) false arg_vals rest σ)
      as [[[[found arg_vals']|f] args1] σ1] eqn:E.
    + pose proof (scan_vals_length _ _ _ _ _ _ _ _ _ _ _ E) as Hlen'.
      apply (scan_keeps a (opt self)) in E as [Hk Hc']; [|done..].
      specialize (Hc' _ _ eq_refl).
      assert (∀ r' σ'' unknown' args'',
                 loop fuel self return_unknown args'' parsed_pos arg_dest arg_vals'
                   unknown' σ1 = (r', σ'') → keeps l σ σ'') as Hnext.
      { intros r' σ'' unknown' args'' H. eapply keeps_trans; [exact Hk|].
        refine (IH _ _ _ _ _ _ _ _ _ _ Hc' H); [by eapply keeps_lt|lia]. }
      destruct found; [apply Hnext|].
      destruct return_unknown; [|by intros [= _ <-]].
      destruct (consume_unknown (unknown ++ [a]) args1). apply Hnext.
    + apply (scan_keeps a (opt self)) in E as [Hk _]; [|done..]. by intros [= _ <-].
  - destruct parsed_pos.
    { destruct return_unknown; intros [= _ <-]; apply keeps_refl. }
    destruct (parse_pos (pos self) arg_dest arg_vals args σ)
      as [[[[arg_dest' arg_vals']|f] args1] σ1] eqn:E.
    + pose proof (parse_pos_vals _ _ _ _ _ _ _ _ _ E) as [vs ->].
      apply parse_pos_keeps in E; [|done].
      destruct (if return_unknown then consume_unknown unknown args1 else (unknown, args1)).
      intros H. eapply keeps_trans; [exact E|].
      refine (IH _ _ _ _ _ _ _ _ _ _ (not_appended_to_app _ _ _ Hlen Hc) H);
        [by eapply keeps_lt|rewrite length_app; lia].
    + apply parse_pos_keeps in E; [|done]. by intros [= _ <-].
Qed.

(** A list object that is not the default of an append spec has the same
    content after [_parse_args], whether it returns or fails. *)
Lemma _parse_args_keeps (self : ArgumentParser) (args : list string)
    (return_unknown : bool) (σ : store) :
  (l < List.length σ)%nat →
  (∀ s, s ∈ opt self → action s = "append" → default s ≠ VList l) →
  (_parse_args self args return_unknown σ).2 !! l = σ !! l.
Proof.
  intros Hl Hdef. unfold _parse_args.
  destruct (loop _ _ _ _ _ _ _ _ _) as [r σ'] eqn:E.
  apply loop_keeps in E as [_ E]; [|done|by rewrite length_map|].
  - destruct r as [st|f]; [|done].
    destruct (required_but_not_used _ _ _) as [[|d ds]|f]; [|done..].
    by destruct (namedtuple _ _).
  - intros i s Hi Hs. rewrite list_lookup_fmap, Hi. cbn. intros [= E'].
    apply (Hdef s); [|done..]. apply list_elem_of_lookup. by exists i.
Qed.

(** The same for the entry points: in particular the caller's token list
    is as it was, unless it is itself such a default. *)
Lemma _parse_args_impl_keeps (self : ArgumentParser) (argv : list string)
    (args : option loc) (return_unknown : bool) (σ : store) :
  (l < List.length σ)%nat →
  (∀ s, s ∈ opt self → action s = "append" → default s ≠ VList l) →
  (_parse_args_impl self argv args return_unknown σ).2 !! l = σ !! l.
Proof.
  intros Hl Hdef.
  assert (∀ toks,
             (match _parse_args self toks return_unknown σ with
              | (Fail (Raise e), σ') => (Fail (SysExit 2 (Some e)), σ')
              | r => r
              end).2 !! l = σ !! l) as Hrun.
  { intros toks. pose proof (_parse_args_keeps self toks return_unknown σ Hl Hdef) as H.
    destruct (_parse_args self toks return_unknown σ) as [[r|[]] σ']; exact H. }
  unfold _parse_args_impl. destruct args as [la|]; [|apply Hrun].
  destruct (σ !! la) as [vs|]; [|done].
  destruct (tokens_of vs); [apply Hrun|done].
Qed.

End Frame.

(** C2 (the code departs from the claim): the list object given as the
    default of an append spec is appended to during a parse.  With the empty
    list at location 0 as the default of [--x], parsing [--x a] leaves
    [a] in that object, and the same parse repeated finds it there: the
    default is [[]] before, [[a]] after the first and [[a, a]] after the
    second call, and [x] is bound to this very object. *)
Theorem append_default_is_mutated :
  append_default_parser 0 = Ret (append_default 0) ∧
  default (append_default_spec 0) = VList 0 ∧
  let tokens := [VStr "--x"; VStr "a"] in
  parse_args (append_default 0) [] (Some 1%nat) [[]; tokens]
  = (Ret {| values := [("x", VList 0)]; unknown := None |}, [[VStr "a"]; tokens]) ∧
  parse_args (append_default 0) [] (Some 1%nat) [[VStr "a"]; tokens]
  = (Ret {| values := [("x", VList 0)]; unknown := None |}, [[VStr "a"; VStr "a"]; tokens]).
Proof. repeat split. Qed.

(** C10 (the code departs from the claim): when the caller's token list is
    the very object given as the default of an append spec, the parse
    appends to it, although it pops from a copy: the caller's list
    [[--x, a]] holds [[--x, a, a]] afterwards. *)
Theorem caller_list_is_mutated_through_default :
  append_default_parser 0 = Ret (append_default 0) ∧
  parse_args (append_default 0) [] (Some 0%nat) [[VStr "--x"; VStr "a"]]
  = (Ret {| values := [("x", VList 0)]; unknown := None |},
     [[VStr "--x"; VStr "a"; VStr "a"]]).
Proof. repeat split. Qed.

(** * Further properties *)

(** ** Value extraction *)

Section ExtractionMore.

Variable self : _Arg.
Variable optname : string.

Lemma parse_multi_store (n : Z) (args : list string) (σ : store) :
  σ `prefix_of` (parse_multi self optname n args σ).2.
Proof.
  unfold parse_multi.
  destruct (collect self optname n true [] args) as [[[ret n']|f] args1]; [|done].
  destruct (0 <? n'); [done|]. cbn. by apply prefix_app_r.
Qed.

Lemma parse_store (args : list string) (σ : store) :
  σ `prefix_of` (parse self optname args σ).2.
Proof.
  unfold parse. repeat case_match; try done; apply parse_multi_store.
Qed.

(** What the loop collects and what it takes: one token for every value,
    and [n] counts the values. *)
Lemma collect_count (args : list string) :
  ∀ n stop ret ret' n' args',
    collect self optname n stop ret args = (Ret (ret', n'), args') →
    Z.of_nat (List.length ret') = Z.of_nat (List.length ret) + (n - n') ∧
    (List.length ret' + List.length args' ≤ List.length ret + List.length args)%nat ∧
    (0 ≤ n → 0 ≤ n').
Proof.
  induction args as [|a rest IH]; intros n stop ret ret' n' args'; cbn [collect].
  - intros [= <- <- <-]. split; [lia|]. split; [done|lia].
  - destruct (Z.eqb_spec n 0) as [->|Hn0].
    { intros [= <- <- <-]. split; [lia|]. split; [done|lia]. }
    destruct (stop && dashed a).
    + destruct (String.eqb a "--").
      * intros H. apply IH in H as (H1 & H2 & H3). cbn [List.length]. split; [done|].
        split; [lia|done].
      * intros [= <- <- <-]. split; [lia|]. split; [done|lia].
    + destruct (_checked self optname a); [|done].
      intros H. apply IH in H as (H1 & H2 & H3). rewrite length_app in H1, H2.
      cbn [List.length] in *. split; [lia|]. split; [lia|lia].
Qed.

(** With a negative [n] the loop does what it does with [-1]. *)
Lemma collect_negative (args : list string) :
  ∀ n m stop ret,
    n < 0 → m < 0 →
    collect self optname n stop ret args
    = match collect self optname m stop ret args with
      | (Ret (ret', m'), args') => (Ret (ret', m' + (n - m)), args')
      | (Fail f, args') => (Fail f, args')
      end.
Proof.
  induction args as [|a rest IH]; intros n m stop ret Hn Hm; cbn [collect].
  - do 3 f_equal. lia.
  - destruct (Z.eqb_spec n 0); [lia|]. destruct (Z.eqb_spec m 0); [lia|].
    destruct (stop && dashed a).
    + destruct (String.eqb a "--"); [by apply IH|]. do 3 f_equal. lia.
    + destruct (_checked self optname a); [|done].
      rewrite (IH (n - 1) (m - 1)) by lia.
      destruct (collect self optname (m - 1) stop (ret ++ [a0]) rest) as [[[r k]|f] a']; [|done].
      do 3 f_equal. lia.
Qed.

Lemma parse_multi_negative (n : Z) (args : list string) (σ : store) :
  n < 0 → parse_multi self optname n args σ = parse_multi self optname (-1) args σ.
Proof.
  intros Hn. unfold parse_multi. rewrite (collect_negative args n (-1)) by lia.
  destruct (collect self optname (-1) true [] args) as [[[r k]|f] a'] eqn:E; [|done].
  apply collect_n_le in E.
  destruct (Z.ltb_spec 0 (k + (n - -1))); [lia|]. destruct (Z.ltb_spec 0 k); [lia|]. done.
Qed.

(** The loop does not look at [nargs]. *)
Lemma collect_with_nargs (v : value) (args : list string) :
  ∀ n stop ret,
    collect (with_nargs self v) optname n stop ret args = collect self optname n stop ret args.
Proof.
  induction args as [|a rest IH]; intros n stop ret; cbn [collect]; [done|].
  destruct (n =? 0); [done|]. destruct (stop && dashed a).
  - destruct (String.eqb a "--"); [apply IH|done].
  - change (_checked (with_nargs self v) optname a) with (_checked self optname a).
    destruct (_checked self optname a); [apply IH|done].
Qed.

Lemma parse_multi_with_nargs (v : value) (n : Z) (args : list string) (σ : store) :
  parse_multi (with_nargs self v) optname n args σ = parse_multi self optname n args σ.
Proof. unfold parse_multi. by rewrite collect_with_nargs. Qed.

End ExtractionMore.

(** X1: a value extraction takes its tokens from the front and nothing
    else: what is left is a suffix of the tokens it was given, whether it
    returns or fails; and it changes no list object, it can only add the
    list it returns. *)
Theorem parse_takes_from_front (self : _Arg) (optname : string) (args : list string)
    (σ : store) :
  (parse self optname args σ).1.2 `suffix_of` args ∧
  σ `prefix_of` (parse self optname args σ).2.
Proof.
  split; [|apply parse_store].
  destruct (parse self optname args σ) as [[r args'] σ'] eqn:E. by eapply parse_suffix.
Qed.

(** X2: with a fixed count [N >= 0], an extraction that returns gives a new
    list of exactly [N] values and has taken at least [N] tokens; with
    fewer than [N] tokens it does not return, and with [N = 0] it returns
    the empty list and takes nothing, whatever the tokens are. *)
Theorem fixed_count_exact (self : _Arg) (optname : string) (N : Z) (args : list string)
    (σ : store) :
  takes_values self → fixed_count self N → 0 ≤ N →
  (∀ v args' σ', parse self optname args σ = (Ret v, args', σ') →
     ∃ vs, v = VList (List.length σ) ∧ σ' = σ ++ [vs] ∧
           Z.of_nat (List.length vs) = N ∧
           Z.of_nat (List.length args') + N ≤ Z.of_nat (List.length args)) ∧
  (Z.of_nat (List.length args) < N → ∀ v, (parse self optname args σ).1.1 ≠ Ret v) ∧
  (N = 0 → parse self optname args σ = (Ret (VList (List.length σ)), args, σ ++ [[]])).
Proof.
  intros Htv Hfc HN. rewrite (parse_count self optname N args σ Htv Hfc).
  assert (∀ v args' σ', parse_multi self optname N args σ = (Ret v, args', σ') →
            ∃ vs, v = VList (List.length σ) ∧ σ' = σ ++ [vs] ∧
                  Z.of_nat (List.length vs) = N ∧
                  Z.of_nat (List.length args') + N ≤ Z.of_nat (List.length args)) as Hret.
  { intros v args' σ'. unfold parse_multi.
    destruct (collect self optname N true [] args) as [[[ret n']|f] args1] eqn:E; [|done].
    apply collect_count in E as (H1 & H2 & H3). specialize (H3 HN).
    destruct (Z.ltb_spec 0 n'); [done|]. cbn. intros [= <- <- <-].
    exists ret. cbn [List.length] in *. repeat split; lia. }
  split; [exact Hret|]. split.
  - intros Hshort v Hv.
    destruct (parse_multi self optname N args σ) as [[r args'] σ'] eqn:E. cbn in Hv. subst r.
    destruct (Hret v args' σ' eq_refl) as (vs & _ & _ & H1 & H2). lia.
  - intros ->. unfold parse_multi. by destruct args.
Qed.

Lemma fixed_count_exact_witness :
  parse (with_nargs star_spec (VInt 2)) "--items" ["a"; "b"; "c"] []
  = (Ret (VList 0), ["c"], [[VStr "a"; VStr "b"]]) ∧
  ∃ vs, VList 0 = VList (List.length (A:=list value) []) ∧
        [[VStr "a"; VStr "b"]] = [] ++ [vs] ∧ Z.of_nat (List.length vs) = 2.
Proof.
  split; [reflexivity|].
  destruct (proj1 (fixed_count_exact (with_nargs star_spec (VInt 2)) "--items" 2
                     ["a"; "b"; "c"] [] (or_introl eq_refl)
                     (conj eq_refl (conj eq_refl (conj eq_refl (conj eq_refl eq_refl))))
                     ltac:(lia))
              (VList 0) ["c"] [[VStr "a"; VStr "b"]] eq_refl) as (vs & H1 & H2 & H3 & _).
  by exists vs.
Defined.

(** X3: a negative count never runs out: a spec whose [nargs] is an integer
    below zero extracts exactly as it would with [nargs="*"]. *)
Theorem negative_count_is_zero_or_more (self : _Arg) (optname : string) (N : Z)
    (args : list string) (σ : store) :
  takes_values self → fixed_count self N → N < 0 →
  parse self optname args σ = parse (with_nargs self (VStr "*")) optname args σ.
Proof.
  intros Htv Hfc HN.
  rewrite (parse_count self optname N args σ Htv Hfc).
  rewrite (parse_star (with_nargs self (VStr "*")) optname args σ Htv eq_refl).
  by rewrite parse_multi_with_nargs, parse_multi_negative.
Qed.

Lemma negative_count_is_zero_or_more_witness :
  parse (with_nargs star_spec (VInt (-3))) "--items" ["a"; "b"; "-c"] []
  = (Ret (VList 0), ["-c"], [[VStr "a"; VStr "b"]]).
Proof.
  rewrite (negative_count_is_zero_or_more (with_nargs star_spec (VInt (-3))) "--items" (-3)
             ["a"; "b"; "-c"] [] (or_introl eq_refl)
             (conj eq_refl (conj eq_refl (conj eq_refl (conj eq_refl eq_refl))))
             ltac:(lia)).
  reflexivity.
Defined.

Lemma existsb_str_eq_value (tok : string) (cs : list value) :
  existsb (str_eq_value tok) cs = true ↔ VStr tok ∈ cs.
Proof.
  rewrite existsb_exists. split.
  - intros (c & Hc%list_elem_of_In & Heq). destruct c; try done.
    cbn in Heq. apply String.eqb_eq in Heq. by subst.
  - intros H. exists (VStr tok). split; [by apply list_elem_of_In|].
    cbn. apply String.eqb_refl.
Qed.

(** X4: the choices are compared with the raw token, before the converter
    runs: [_checked] fails with InvalidChoice exactly when the choices are
    a non-empty list that does not hold the token as a string (so choices
    that hold no string reject every token, and an empty list of choices
    restricts nothing); in every other case its result is the converter's. *)
Theorem choices_checked_on_raw_token (self : _Arg) (optname tok : string) :
  (∀ tok' cs,
     _checked self optname tok = Fail (Raise (InvalidChoice tok' cs))
     ↔ tok' = tok ∧ choices self = Some cs ∧ cs ≠ [] ∧ VStr tok ∉ cs) ∧
  ((∀ tok' cs, _checked self optname tok ≠ Fail (Raise (InvalidChoice tok' cs))) →
   _checked self optname tok = convert self optname tok).
Proof.
  unfold _checked, rejected_by_choices.
  destruct (choices self) as [[|c cs0]|] eqn:Hc.
  - split.
    + intros tok' cs. unfold convert. split.
      * by destruct (conv_apply _ _).
      * by intros (_ & [= <-] & Hne & _).
    + done.
  - destruct (existsb (str_eq_value tok) (c :: cs0)) eqn:Hex; cbn [negb].
    + apply existsb_str_eq_value in Hex. split; [|done].
      intros tok' cs. unfold convert. split.
      * by destruct (conv_apply _ _).
      * by intros (_ & [= <-] & _ & Hnin).
    + assert (VStr tok ∉ c :: cs0) as Hnin.
      { intros H%existsb_str_eq_value. congruence. }
      split.
      * intros tok' cs. cbn. split; [by intros [= <- <-]|].
        by intros (-> & [= <-] & _ & _).
      * intros H. by destruct (H tok (c :: cs0)).
  - split.
    + intros tok' cs. unfold convert. split.
      * by destruct (conv_apply _ _).
      * by intros (_ & [=] & _).
    + done.
Qed.

(** ** The result record and the two modes *)

Section RecordAndModes.

Variable self : ArgumentParser.

Lemma parse_pos_dests (poss : list _Arg) :
  ∀ arg_dest arg_vals args σ arg_dest' arg_vals' args' σ',
    parse_pos poss arg_dest arg_vals args σ = (Ret (arg_dest', arg_vals'), args', σ') →
    arg_dest' = arg_dest ++ map dest poss ∧
    List.length arg_vals' = (List.length arg_vals + List.length poss)%nat.
Proof.
  induction poss as [|pos poss IH];
    intros arg_dest arg_vals args σ arg_dest' arg_vals' args' σ'; cbn [parse_pos].
  - intros [= <- <- _ _]. rewrite app_nil_r. cbn. split; [done|lia].
  - destruct (names pos) as [|name0 ?]; [done|].
    destruct (parse pos name0 args σ) as [[[v|f] args1] σ2]; [|done].
    intros H. apply IH in H as [-> ->]. rewrite <- app_assoc, length_app. cbn. split; [done|lia].
Qed.

(** When the loop is left, the dests are those of the named specs followed
    by those of the positional specs, and every dest has its value. *)
Lemma loop_dests (return_unknown : bool) (fuel : nat) :
  ∀ args parsed_pos arg_dest arg_vals unknown σ st σ',
    loop fuel self return_unknown args parsed_pos arg_dest arg_vals unknown σ = (Ret st, σ') →
    arg_dest = map dest (opt self) ++ (if parsed_pos then map dest (pos self) else []) →
    List.length arg_vals = List.length arg_dest →
    l_dest st = map dest (opt self) ++ map dest (pos self) ∧
    List.length (l_vals st) = List.length (l_dest st).
Proof.
  induction fuel as [|fuel IH];
    intros args parsed_pos arg_dest arg_vals unknown σ st σ'; cbn [loop]; [done|].
  destruct (negb (bool_decide (args = []))) eqn:Hargs; cbn [orb].
  - destruct (front_option args) as [[a rest]|].
    + destruct (str_in a ["-h"; "--help"]); [done|].
      destruct (scan a 0 (opt self) false arg_vals rest σ)
        as [[[[found arg_vals']|f] args1] σ1] eqn:E; [|done].
      apply scan_vals_length in E.
      destruct found.
      * intros H Hd Hl. eapply IH; [exact H|done|congruence].
      * destruct return_unknown; [|done].
        destruct (consume_unknown (unknown ++ [a]) args1).
        intros H Hd Hl. eapply IH; [exact H|done|congruence].
    + destruct parsed_pos.
      * destruct return_unknown; [|done]. intros [= <- _] Hd Hl. by split.
      * destruct (parse_pos (pos self) arg_dest arg_vals args σ)
          as [[[[arg_dest' arg_vals']|f] args1] σ1] eqn:E; [|done].
        apply parse_pos_dests in E as [-> Hlen].
        destruct (if return_unknown then consume_unknown unknown args1 else (unknown, args1)).
        intros H Hd Hl. eapply IH; [exact H| |].
        -- rewrite Hd. by rewrite app_nil_r.
        -- rewrite Hlen, length_app, length_map. lia.
  - destruct parsed_pos; cbn [negb].
    + intros [= <- _] Hd Hl. by split.
    + destruct (front_option args) as [[a rest]|] eqn:Hf.
      { apply front_option_Some in Hf as [-> _]. by rewrite bool_decide_eq_false_2 in Hargs. }
      destruct (parse_pos (pos self) arg_dest arg_vals args σ)
        as [[[[arg_dest' arg_vals']|f] args1] σ1] eqn:E; [|done].
      apply parse_pos_dests in E as [-> Hlen].
      destruct (if return_unknown then consume_unknown unknown args1 else (unknown, args1)).
      intros H Hd Hl. eapply IH; [exact H| |].
      * rewrite Hd. by rewrite app_nil_r.
      * rewrite Hlen, length_app, length_map. lia.
Qed.

Lemma combine_fst {A B : Type} (l : list A) (k : list B) :
  List.length l = List.length k → (combine l k).*1 = l.
Proof.
  revert k. induction l as [|x l IH]; intros [|y k]; cbn; try done.
  intros [= H]. by rewrite IH.
Qed.

(** What the steps of the loop raise. *)
Lemma parse_raises (s : _Arg) (optname : string) (args : list string) (σ : store)
    (e : _ArgError) :
  (parse s optname args σ).1.1 = Fail (Raise e) → value_error e.
Proof.
  assert (∀ a, _checked s optname a = Fail (Raise e) → value_error e) as Hc.
  { intros a. unfold _checked, convert. destruct (rejected_by_choices s a).
    - by intros [= <-].
    - destruct (conv_apply _ _); [done|]. by intros [= <-]. }
  assert (∀ n, (parse_multi s optname n args σ).1.1 = Fail (Raise e) → value_error e) as Hm.
  { intros n. unfold parse_multi.
    destruct (collect s optname n true [] args) as [[[ret n']|f] args1] eqn:E.
    - destruct (0 <? n'); cbn; [by intros [= <-]|done].
    - cbn. intros [= ->]. apply collect_fail in E as (a & _ & Ha). by eapply Hc. }
  unfold parse, int_of_value.
  repeat case_match; subst; cbn; try done; try (by intros [= <-]);
    try apply Hc; try apply Hm; try (simplify_eq; done).
Qed.

Lemma scan_raises (a : string) (opts : list _Arg) (e : _ArgError) :
  ∀ i found arg_vals args σ,
    (scan a i opts found arg_vals args σ).1.1 = Fail (Raise e) → value_error e.
Proof.
  induction opts as [|opt opts IH]; intros i found arg_vals args σ; cbn [scan]; [done|].
  destruct (str_in a (names opt)); [|by apply IH].
  destruct (String.eqb (action opt) "append").
  - destruct (arg_vals !! i) as [v0|]; [|done].
    destruct (is_none v0).
    + cbn. pose proof (parse_raises opt a args (σ ++ [[]]) e) as Hp.
      destruct (parse opt a args _) as [[[v|f] args1] σ2]; [apply IH|].
      cbn in *. intros [= ->]. by apply Hp.
    + destruct v0; try done.
      pose proof (parse_raises opt a args σ e) as Hp.
      destruct (parse opt a args _) as [[[v|f] args1] σ2]; [apply IH|].
      cbn in *. intros [= ->]. by apply Hp.
  - pose proof (parse_raises opt a args σ e) as Hp.
    destruct (parse opt a args σ) as [[[v|f] args1] σ2].
    + by case_decide.
    + cbn in *. intros [= ->]. by apply Hp.
Qed.

Lemma parse_pos_raises (poss : list _Arg) (e : _ArgError) :
  ∀ arg_dest arg_vals args σ,
    (parse_pos poss arg_dest arg_vals args σ).1.1 = Fail (Raise e) → value_error e.
Proof.
  induction poss as [|pos poss IH]; intros arg_dest arg_vals args σ; cbn [parse_pos]; [done|].
  destruct (names pos) as [|name0 ?]; [done|].
  pose proof (parse_raises pos name0 args σ e) as Hp.
  destruct (parse pos name0 args σ) as [[[v|f] args1] σ2]; [apply IH|].
  cbn in *. intros [= ->]. by apply Hp.
Qed.

Lemma loop_tolerant_raises (e : _ArgError) (fuel : nat) :
  ∀ args parsed_pos arg_dest arg_vals unknown σ,
    (loop fuel self true args parsed_pos arg_dest arg_vals unknown σ).1 = Fail (Raise e) →
    value_error e.
Proof.
  induction fuel as [|fuel IH]; intros args parsed_pos arg_dest arg_vals unknown σ;
    cbn [loop]; [done|].
  destruct (negb (bool_decide (args = [])) || negb parsed_pos); [|done].
  destruct (front_option args) as [[a rest]|].
  - destruct (str_in a ["-h"; "--help"]); [done|].
    pose proof (scan_raises a (opt self) e 0 false arg_vals rest σ) as Hs.
    destruct (scan a 0 (opt self) false arg_vals rest σ)
      as [[[[found arg_vals']|f] args1] σ1].
    + destruct found; [apply IH|].
      destruct (consume_unknown (unknown ++ [a]) args1). apply IH.
    + cbn in *. intros [= ->]. by apply Hs.
  - destruct parsed_pos; [done|].
    pose proof (parse_pos_raises (pos self) e arg_dest arg_vals args σ) as Hp.
    destruct (parse_pos (pos self) arg_dest arg_vals args σ)
      as [[[[arg_dest' arg_vals']|f] args1] σ1].
    + destruct (consume_unknown unknown args1). apply IH.
    + cbn in *. intros [= ->]. by apply Hp.
Qed.

(** A strict loop that goes on after the positional phase has a named
    option in front, or nothing: the sweep would take nothing. *)
Lemma strict_front_after_pos (fuel : nat) (args : list string) (arg_dest : list string)
    (arg_vals : list value) (σ : store) (st : locals) (σ' : store) :
  loop fuel self false args true arg_dest arg_vals [] σ = (Ret st, σ') →
  consume_unknown [] args = ([], args).
Proof.
  destruct fuel as [|fuel]; [done|]. cbn [loop].
  destruct args as [|a rest]; [done|].
  rewrite bool_decide_eq_false_2 by done. cbn [negb orb front_option].
  destruct (looks_named a) eqn:Ha; [|done]. intros _. cbn [consume_unknown].
  unfold looks_named in Ha. by destruct (startswith a "-").
Qed.

(** A strict loop that returns is a tolerant loop that returns the same. *)
Lemma loop_strict_tolerant (fuel : nat) :
  ∀ args parsed_pos arg_dest arg_vals σ st σ',
    loop fuel self false args parsed_pos arg_dest arg_vals [] σ = (Ret st, σ') →
    loop fuel self true args parsed_pos arg_dest arg_vals [] σ = (Ret st, σ') ∧
    l_unknown st = [].
Proof.
  induction fuel as [|fuel IH]; intros args parsed_pos arg_dest arg_vals σ st σ'; [done|].
  rewrite !loop_S.
  destruct (negb (bool_decide (args = [])) || negb parsed_pos); [|by intros [= <- <-]].
  destruct (front_option args) as [[a rest]|].
  - destruct (str_in a ["-h"; "--help"]); [done|].
    destruct (scan a 0 (opt self) false arg_vals rest σ)
      as [[[[found arg_vals']|f] args1] σ1]; [|done].
    destruct found; [apply IH|done].
  - destruct parsed_pos; [done|].
    destruct (parse_pos (pos self) arg_dest arg_vals args σ)
      as [[[[arg_dest' arg_vals']|f] args1] σ1]; [|done].
    intros H. rewrite (strict_front_after_pos _ _ _ _ _ _ _ H). by apply IH.
Qed.

End RecordAndModes.

(** X5: the record of a parse that returns has one field for every declared
    spec: its field names are the dests of the named specs, in declaration
    order, followed by the dests of the positional specs, in declaration
    order; the leftover sequence is there in tolerant mode only. *)
Theorem record_fields (self : ArgumentParser) (args : list string) (return_unknown : bool)
    (σ σ' : store) (r : parsed) :
  _parse_args self args return_unknown σ = (Ret r, σ') →
  (values r).*1 = map dest (opt self) ++ map dest (pos self) ∧
  (unknown r = None ↔ return_unknown = false).
Proof.
  unfold _parse_args.
  destruct (loop _ _ _ _ _ _ _ _ _) as [[st|f] σ1] eqn:E; [|done].
  apply loop_dests in E as [Hd Hl]; [|by rewrite app_nil_r|by rewrite !length_map].
  destruct (required_but_not_used _ _ _) as [[|d ds]|f]; [|done..].
  unfold namedtuple. case_decide; [|done]. intros [= <- _]. cbn [values unknown].
  rewrite combine_fst by done. split; [done|]. by destruct return_unknown.
Qed.

Lemma record_fields_witness :
  let r := {| values := [("count", VInt 3); ("name", VStr "alice")]; unknown := None |} in
  _parse_args count_name ["--count"; "3"; "alice"] false [] = (Ret r, []) ∧
  (values r).*1 = ["count"; "name"].
Proof.
  cbn zeta. split; [reflexivity|].
  exact (proj1 (record_fields count_name ["--count"; "3"; "alice"] false [] []
                  {| values := [("count", VInt 3); ("name", VStr "alice")]; unknown := None |}
                  eq_refl)).
Defined.

(** X6: in tolerant mode no parse fails with UnknownOption or with
    ExtraArguments: an [_ArgError] of [parse_known_args] is a MissingValue,
    an InvalidChoice, an InvalidValue or a MissingRequired. *)
Theorem tolerant_mode_errors (self : ArgumentParser) (args : list string) (σ : store)
    (e : _ArgError) :
  (_parse_args self args true σ).1 = Fail (Raise e) →
  value_error e ∨ ∃ ds, e = MissingRequired ds.
Proof.
  unfold _parse_args.
  pose proof (loop_tolerant_raises self e (S (S (List.length args))) args false
                (map dest (opt self)) (map default (opt self)) [] σ) as Hl.
  destruct (loop _ _ _ _ _ _ _ _ _) as [[st|f] σ1].
  - destruct (required_but_not_used _ _ _) as [[|d ds]|f] eqn:Er.
    + unfold namedtuple. by case_decide.
    + cbn. intros [= <-]. right. by eexists.
    + cbn. intros [= ->]. exfalso. clear Hl.
      revert Er. generalize 0%nat. generalize (l_vals st).
      induction (opt self) as [|arg opts IH]; intros vals i; cbn [required_but_not_used]; [done|].
      destruct (required arg); [|apply IH].
      destruct (vals !! i); [|done].
      specialize (IH vals (S i)).
      destruct (required_but_not_used opts (S i) vals); [done|]. intros [= ->]. by apply IH.
  - cbn in *. intros [= ->]. left. by apply Hl.
Qed.

Lemma tolerant_mode_errors_witness :
  _parse_args count_name ["--count"] true [] = (Fail (Raise (MissingValue "--count")), []) ∧
  (value_error (MissingValue "--count") ∨ ∃ ds, MissingValue "--count" = MissingRequired ds).
Proof.
  split; [reflexivity|].
  exact (tolerant_mode_errors count_name ["--count"] [] (MissingValue "--count") eq_refl).
Defined.

(** X7: whenever the strict parse of a token list returns a record, the
    tolerant parse of the same tokens returns the same record, with an
    empty leftover sequence and the same store. *)
Theorem tolerant_extends_strict (self : ArgumentParser) (args : list string)
    (σ σ' : store) (r : parsed) :
  _parse_args self args false σ = (Ret r, σ') →
  _parse_args self args true σ = (Ret {| values := values r; unknown := Some [] |}, σ').
Proof.
  unfold _parse_args.
  destruct (loop _ self false _ _ _ _ _ _) as [[st|f] σ1] eqn:E; [|done].
  apply loop_strict_tolerant in E as [-> Hu].
  destruct (required_but_not_used _ _ _) as [[|d ds]|f]; [|done..].
  destruct (namedtuple _ _); [|done]. intros [= <- <-]. by rewrite Hu.
Qed.

Lemma tolerant_extends_strict_witness :
  _parse_args count_name ["alice"; "--count"; "7"] true []
  = (Ret {| values := [("count", VInt 7); ("name", VStr "alice")]; unknown := Some [] |}, []).
Proof.
  exact (tolerant_extends_strict count_name ["alice"; "--count"; "7"] [] []
           {| values := [("count", VInt 7); ("name", VStr "alice")]; unknown := None |}
           eq_refl).
Defined.

(** ** The store and the loop bound *)

(** X8: a parse, whether it returns or fails, leaves every list object as
    it was, except a list that is the default of an append spec: so the
    caller's token list is never changed unless it is such a default. *)
Theorem parse_writes_only_append_defaults (self : ArgumentParser) (argv : list string)
    (args : option loc) (return_unknown : bool) (σ : store) (l : loc) :
  (l < List.length σ)%nat →
  (∀ s, s ∈ opt self → action s = "append" → default s ≠ VList l) →
  (_parse_args_impl self argv args return_unknown σ).2 !! l = σ !! l.
Proof. apply _parse_args_impl_keeps. Qed.

Lemma parse_writes_only_append_defaults_witness :
  (parse_args (append_default 0) [] (Some 1%nat) [[VStr "z"]; [VStr "--x"; VStr "a"]]).2 !! 1%nat
  = Some [VStr "--x"; VStr "a"].
Proof.
  apply (parse_writes_only_append_defaults (append_default 0) [] (Some 1%nat) false
           [[VStr "z"]; [VStr "--x"; VStr "a"]] 1%nat); [cbn; lia|].
  intros s Hs _. apply list_elem_of_singleton in Hs as ->. discriminate.
Defined.

Section Fuel.

Variable self : ArgumentParser.
Variable return_unknown : bool.

(** More turns than needed change nothing. *)
Lemma loop_fuel_S (fuel : nat) :
  ∀ args parsed_pos arg_dest arg_vals unknown σ,
    (loop fuel self return_unknown args parsed_pos arg_dest arg_vals unknown σ).1
    ≠ Fail OutOfFuel →
    loop (S fuel) self return_unknown args parsed_pos arg_dest arg_vals unknown σ
    = loop fuel self return_unknown args parsed_pos arg_dest arg_vals unknown σ.
Proof.
  induction fuel as [|fuel IH]; intros args parsed_pos arg_dest arg_vals unknown σ; [done|].
  rewrite (loop_S self (S fuel)), (loop_S self fuel).
  destruct (negb (bool_decide (args = [])) || negb parsed_pos); [|done].
  destruct (front_option args) as [[a rest]|].
  - destruct (str_in a ["-h"; "--help"]); [done|].
    destruct (scan a 0 (opt self) false arg_vals rest σ)
      as [[[[found arg_vals']|f] args1] σ1]; [|done].
    destruct found; [apply IH|].
    destruct return_unknown; [|done].
    destruct (consume_unknown (unknown ++ [a]) args1). apply IH.
  - destruct parsed_pos; [done|].
    destruct (parse_pos (pos self) arg_dest arg_vals args σ)
      as [[[[arg_dest' arg_vals']|f] args1] σ1]; [|done].
    destruct (if return_unknown then consume_unknown unknown args1 else (unknown, args1)).
    apply IH.
Qed.

Lemma loop_fuel_ge (fuel fuel' : nat) :
  ∀ args parsed_pos arg_dest arg_vals unknown σ,
    (fuel ≤ fuel')%nat →
    (loop fuel self return_unknown args parsed_pos arg_dest arg_vals unknown σ).1
    ≠ Fail OutOfFuel →
    loop fuel' self return_unknown args parsed_pos arg_dest arg_vals unknown σ
    = loop fuel self return_unknown args parsed_pos arg_dest arg_vals unknown σ.
Proof.
  intros args parsed_pos arg_dest arg_vals unknown σ Hle Hok.
  induction Hle as [|fuel' Hle IH]; [done|].
  rewrite loop_fuel_S; [done|]. by rewrite IH.
Qed.

End Fuel.

(** X9: the [while] loop of [_parse_args] always ends: on [n] tokens it
    tests its condition at most [n + 2] times (a turn pops a token or
    enters the positional phase, which happens once), and a larger bound
    gives the same result. *)
Theorem parse_loop_ends (self : ArgumentParser) (return_unknown : bool)
    (args : list string) (arg_dest : list string) (arg_vals : list value)
    (unknown : list string) (σ : store) (fuel : nat) :
  (loop (List.length args + 2) self return_unknown args false arg_dest arg_vals unknown σ).1
  ≠ Fail OutOfFuel ∧
  ((List.length args + 2 ≤ fuel)%nat →
   loop fuel self return_unknown args false arg_dest arg_vals unknown σ
   = loop (List.length args + 2) self return_unknown args false arg_dest arg_vals unknown σ).
Proof.
  assert ((loop (List.length args + 2) self return_unknown args false arg_dest arg_vals
             unknown σ).1 ≠ Fail OutOfFuel) as Hok by (by apply loop_no_fuel).
  split; [done|]. intros Hle. by apply loop_fuel_ge.
Qed.

(** ** One named spec given several times *)

Section Repeated.

Variable self : ArgumentParser.
Variable s : _Arg.
Variable n : string.
Hypothesis opt_s : opt self = [s].
Hypothesis pos_none : pos self = [].
Hypothesis single : nargs s = VNone.
Hypothesis spelled : str_in n (names s) = true.
Hypothesis n_named : looks_named n = true.
Hypothesis n_no_help : str_in n ["-h"; "--help"] = false.

Lemma loop_done (fuel : nat) (arg_dest : list string) (arg_vals : list value) (σ : store) :
  (2 ≤ fuel)%nat →
  loop fuel self false [] false arg_dest arg_vals [] σ
  = (Ret {| l_dest := arg_dest; l_vals := arg_vals; l_unknown := [] |}, σ).
Proof.
  destruct fuel as [|[|fuel]]; [lia..|]. intros _.
  rewrite loop_S. cbn [front_option bool_decide negb orb].
  rewrite bool_decide_eq_true_2 by done. cbn [negb orb].
  rewrite pos_none. cbn [parse_pos]. rewrite loop_S.
  by rewrite bool_decide_eq_true_2.
Qed.

Lemma insert_alter_same (σ : store) (l : loc) (f : list value → list value)
    (x : list value) :
  <[l := x]> (alter f l σ) = <[l := x]> σ.
Proof.
  revert l. induction σ as [|y σ IH]; intros [|l]; cbn; [done..|]. by rewrite IH.
Qed.

(** The turns of the loop for an append spec that already holds the list
    at [l]. *)
Lemma loop_append (ts : list string) (vs : list value) :
  action s = "append" →
  Forall2 (λ t v, _checked s n t = Ret v) ts vs →
  ∀ fuel l acc σ,
    (List.length ts + 2 ≤ fuel)%nat → σ !! l = Some acc →
    loop fuel self false (repeated n ts) false [dest s] [VList l] [] σ
    = (Ret {| l_dest := [dest s]; l_vals := [VList l]; l_unknown := [] |},
       <[l := acc ++ vs]> σ).
Proof.
  intros Hact. induction 1 as [|t v ts vs Htv _ IH]; intros fuel l acc σ Hfuel Hl.
  - cbn [repeated flat_map]. rewrite loop_done by (cbn in Hfuel; lia).
    rewrite app_nil_r. by rewrite list_insert_id.
  - destruct fuel as [|fuel]; [cbn in Hfuel; lia|].
    rewrite loop_S. cbn [repeated flat_map app front_option].
    rewrite bool_decide_eq_false_2 by done. cbn [negb orb].
    rewrite n_named, n_no_help, opt_s. cbn [scan]. rewrite spelled, Hact. cbn.
    unfold parse. rewrite Hact, single. cbn. rewrite Htv.
    fold (repeated n ts). rewrite (IH fuel l (acc ++ [v])).
    + unfold store_append. rewrite insert_alter_same. by rewrite <- app_assoc.
    + cbn [List.length] in Hfuel. lia.
    + unfold store_append, loc in *. by rewrite list_lookup_alter_eq, Hl.
Qed.

Lemma last_nonempty {A : Type} (x : A) (l : list A) (d d' : A) :
  List.last (x :: l) d = List.last (x :: l) d'.
Proof. revert x. induction l as [|y l IH]; intros x; [done|]. apply (IH y). Qed.

(** The turns of the loop for a store spec. *)
Lemma loop_store (ts : list string) (vs : list value) :
  action s = "store" →
  Forall2 (λ t v, _checked s n t = Ret v) ts vs →
  ∀ fuel v0 σ,
    (List.length ts + 2 ≤ fuel)%nat →
    loop fuel self false (repeated n ts) false [dest s] [v0] [] σ
    = (Ret {| l_dest := [dest s]; l_vals := [List.last vs v0]; l_unknown := [] |}, σ).
Proof.
  intros Hact. induction 1 as [|t v ts vs Htv _ IH]; intros fuel v0 σ Hfuel.
  - cbn [repeated flat_map]. by rewrite loop_done by (cbn in Hfuel; lia).
  - destruct fuel as [|fuel]; [cbn in Hfuel; lia|].
    rewrite loop_S. cbn [repeated flat_map app front_option].
    rewrite bool_decide_eq_false_2 by done. cbn [negb orb].
    rewrite n_named, n_no_help, opt_s. cbn [scan]. rewrite spelled, Hact. cbn.
    unfold parse. rewrite Hact, single. cbn. rewrite Htv.
    destruct (decide (0 < 1)%nat); [|lia].
    fold (repeated n ts). rewrite (IH fuel v) by (cbn [List.length] in Hfuel; lia).
    do 3 f_equal. destruct vs as [|x vs']; [done|]. f_equal. apply last_nonempty.
Qed.

Lemma repeated_length (ts : list string) :
  List.length (repeated n ts) = (2 * List.length ts)%nat.
Proof. unfold repeated. induction ts as [|t ts IH]; cbn; [done|]. rewrite IH. lia. Qed.

End Repeated.

(** X10: an append spec of one value per use, without a default, given
    [k >= 1] times on the command line: the parse returns a new list that
    holds the [k] converted values in the order they were given, whatever
    the value tokens look like, and changes nothing else in the store. *)
Theorem append_accumulates_in_order (self : ArgumentParser) (s : _Arg) (n : string)
    (ts : list string) (vs : list value) (σ : store) :
  opt self = [s] → pos self = [] →
  action s = "append" → nargs s = VNone → default s = VNone →
  str_in n (names s) = true → looks_named n = true → str_in n ["-h"; "--help"] = false →
  Forall2 (λ t v, _checked s n t = Ret v) ts vs → ts ≠ [] →
  _parse_args self (repeated n ts) false σ
  = (Ret {| values := [(dest s, VList (List.length σ))]; unknown := None |}, σ ++ [vs]).
Proof.
  intros Hopt Hpos Hact Hn Hdef Hin Hnamed Hhelp Hvs Hne.
  destruct Hvs as [|t v ts vs Htv Hvs]; [done|].
  unfold _parse_args. rewrite Hopt. cbn [map]. rewrite Hdef.
  rewrite loop_S. cbn [repeated flat_map app front_option].
  rewrite bool_decide_eq_false_2 by done. cbn [negb orb].
  rewrite Hnamed, Hhelp, Hopt. cbn [scan]. rewrite Hin, Hact. cbn -[loop].
  unfold parse. rewrite Hact, Hn. cbn -[loop]. rewrite Htv.
  fold (repeated n ts).
  rewrite (loop_append self s n Hopt Hpos Hn Hin Hnamed Hhelp ts vs Hact Hvs _
             (List.length σ) [v]).
  - cbn [l_vals l_dest l_unknown required_but_not_used].
    destruct (required s); cbn; (f_equal;
      unfold store_append; rewrite insert_alter_same;
      by rewrite insert_app_r_alt, Nat.sub_diag by lia).
  - cbn [List.length]. rewrite repeated_length. lia.
  - unfold store_append. rewrite list_lookup_alter_eq.
    by rewrite lookup_app_r, Nat.sub_diag by lia.
Qed.

Lemma append_accumulates_in_order_witness :
  _parse_args (append_opt (new_parser "prog" "" "")
                 (mk_Arg ["-x"] "x" None py_int "append" VNone VNone VNone false None ""))
    ["-x"; "1"; "-x"; "-2"; "-x"; "3"] false []
  = (Ret {| values := [("x", VList 0)]; unknown := None |}, [[VInt 1; VInt (-2); VInt 3]]).
Proof.
  apply (append_accumulates_in_order _
           (mk_Arg ["-x"] "x" None py_int "append" VNone VNone VNone false None "")
           "-x" ["1"; "-2"; "3"] [VInt 1; VInt (-2); VInt 3] []);
    try reflexivity; [repeat constructor|discriminate].
Defined.

(** X11: a store spec of one value per use, not required, given several
    times on the command line: the record holds the converted value of its
    last use, or the default when it is not given at all, whatever the
    value tokens look like; the store is not changed. *)
Theorem store_last_use_wins (self : ArgumentParser) (s : _Arg) (n : string)
    (ts : list string) (vs : list value) (σ : store) :
  opt self = [s] → pos self = [] →
  action s = "store" → nargs s = VNone → required s = false →
  str_in n (names s) = true → looks_named n = true → str_in n ["-h"; "--help"] = false →
  Forall2 (λ t v, _checked s n t = Ret v) ts vs →
  _parse_args self (repeated n ts) false σ
  = (Ret {| values := [(dest s, List.last vs (default s))]; unknown := None |}, σ).
Proof.
  intros Hopt Hpos Hact Hn Hreq Hin Hnamed Hhelp Hvs.
  unfold _parse_args. rewrite Hopt. cbn [map].
  rewrite (loop_store self s n Hopt Hpos Hn Hin Hnamed Hhelp ts vs Hact Hvs).
  - cbn [l_vals l_dest l_unknown required_but_not_used]. by rewrite Hreq.
  - rewrite repeated_length. lia.
Qed.

Lemma store_last_use_wins_witness :
  _parse_args (append_opt (new_parser "prog" "" "") count_spec)
    ["--count"; "1"; "--count"; "-2"] false []
  = (Ret {| values := [("count", VInt (-2))]; unknown := None |}, []).
Proof.
  apply (store_last_use_wins _ count_spec "--count" ["1"; "-2"] [VInt 1; VInt (-2)] []);
    try reflexivity. repeat constructor.
Defined.

(** ** Command lines of positional tokens *)

Section Positionals.

Lemma parse_single (s : _Arg) (optname : string) (args : list string) (σ : store) :
  single_token s →
  parse s optname args σ
  = match args with
    | a :: rest => (_checked s optname a, rest, σ)
    | [] => (Fail (Raise (MissingValue optname)), [], σ)
    end.
Proof.
  intros [Htv Hn]. unfold parse. rewrite (takes_values_test s Htv), Hn. cbn.
  by destruct args.
Qed.

(** Every positional spec takes the next token, whatever it looks like. *)
Lemma parse_pos_takes (poss : list _Arg) (tvs : list (string * value)) :
  Forall2 takes_one poss tvs →
  ∀ arg_dest arg_vals rest σ,
    parse_pos poss arg_dest arg_vals (tvs.*1 ++ rest) σ
    = (Ret (arg_dest ++ map dest poss, arg_vals ++ tvs.*2), rest, σ).
Proof.
  induction 1 as [|s tv poss tvs (Hs & name0 & names' & Hn & Hc) _ IH];
    intros arg_dest arg_vals rest σ; cbn [parse_pos fmap list_fmap app map].
  - by rewrite !app_nil_r.
  - rewrite Hn, (parse_single s name0 _ σ Hs), Hc, IH. by rewrite <- !app_assoc.
Qed.

(** The positional spec for which no token is left reports it. *)
Lemma parse_pos_short (pre : list _Arg) (s : _Arg) (post : list _Arg)
    (tvs : list (string * value)) (name0 : string) (names' : list string) :
  Forall2 takes_one pre tvs → single_token s → names s = name0 :: names' →
  ∀ arg_dest arg_vals σ,
    parse_pos (pre ++ s :: post) arg_dest arg_vals (tvs.*1) σ
    = (Fail (Raise (MissingValue name0)), [], σ).
Proof.
  intros Hpre Hs Hn.
  induction Hpre as [|s' tv pre tvs (Hs' & n0 & ns & Hn' & Hc) _ IH];
    intros arg_dest arg_vals σ; cbn [parse_pos fmap list_fmap app].
  - by rewrite Hn, (parse_single s name0 _ σ Hs).
  - by rewrite Hn', (parse_single s' n0 _ σ Hs'), Hc, IH.
Qed.

(** The required check passes when the named specs hold their defaults and
    no required spec has the default [None]. *)
Lemma required_but_not_used_defaults (opts : list _Arg) :
  (∀ s, s ∈ opts → required s = true → default s ≠ VNone) →
  ∀ k arg_vals,
    (∀ j s, opts !! j = Some s → arg_vals !! (k + j)%nat = Some (default s)) →
    required_but_not_used opts k arg_vals = Ret [].
Proof.
  induction opts as [|arg opts IH]; intros Hreq k arg_vals Hvals;
    cbn [required_but_not_used]; [done|].
  assert (required_but_not_used opts (S k) arg_vals = Ret []) as Htl.
  { apply IH.
    - intros s Hs. apply Hreq. by right.
    - intros j s Hj. replace (S k + j)%nat with (k + S j)%nat by lia. by apply Hvals. }
  rewrite Htl. destruct (required arg) eqn:Hr; [|done].
  pose proof (Hvals 0%nat arg eq_refl) as H0. rewrite Nat.add_0_r in H0. rewrite H0.
  destruct (default arg) eqn:Hd; try done.
  exfalso. by apply (Hreq arg); [left|..].
Qed.

Lemma required_defaults_then (opts : list _Arg) (vs : list value) :
  (∀ s, s ∈ opts → required s = true → default s ≠ VNone) →
  required_but_not_used opts 0 (map default opts ++ vs) = Ret [].
Proof.
  intros Hreq. apply required_but_not_used_defaults; [done|].
  intros j s Hj. cbn. rewrite lookup_app_l by (rewrite length_map; by eapply lookup_lt_Some).
  by rewrite list_lookup_fmap, Hj.
Qed.

End Positionals.

(** X12: a command line of positional tokens only, one for every positional
    spec, each spec taking one token: when the first token does not look
    like a named option, every spec gets its token in declaration order,
    whatever the later tokens look like, and the named specs get their
    defaults (no required one having the default [None]); with no
    positional spec and no token this is the record of all defaults. *)
Theorem positional_tokens_in_order (self : ArgumentParser) (tvs : list (string * value))
    (return_unknown : bool) (σ : store) :
  Forall2 takes_one (pos self) tvs →
  (∀ t ts, tvs.*1 = t :: ts → looks_named t = false) →
  (∀ s, s ∈ opt self → required s = true → default s ≠ VNone) →
  _parse_args self (tvs.*1) return_unknown σ
  = (Ret {| values := combine (map dest (opt self) ++ map dest (pos self))
                        (map default (opt self) ++ tvs.*2);
            unknown := if return_unknown then Some [] else None |}, σ).
Proof.
  intros Hpos Hfront Hreq. unfold _parse_args.
  assert (front_option tvs.*1 = None) as Hf.
  { destruct (tvs.*1) as [|t ts] eqn:E; [done|]. cbn. by rewrite (Hfront t ts eq_refl). }
  rewrite loop_S. cbn [negb orb]. rewrite orb_true_r, Hf.
  pose proof (parse_pos_takes (pos self) tvs Hpos (map dest (opt self))
                (map default (opt self)) [] σ) as Hp.
  rewrite app_nil_r in Hp. rewrite Hp.
  assert (∀ u, (if return_unknown then consume_unknown u [] else (u, [])) = (u, []))
    as -> by by destruct return_unknown.
  rewrite loop_S. rewrite bool_decide_eq_true_2 by done. cbn [negb orb l_vals l_dest l_unknown].
  rewrite required_defaults_then by done.
  unfold namedtuple. rewrite decide_True; [done|].
  rewrite !length_app, !length_map. by rewrite (Forall2_length _ _ _ Hpos).
Qed.

Lemma positional_tokens_in_order_witness :
  _parse_args count_name_file ["alice"; "--x"] false []
  = (Ret {| values := [("count", VInt 0); ("name", VStr "alice"); ("file", VStr "--x")];
            unknown := None |}, []).
Proof.
  apply (positional_tokens_in_order count_name_file
           [("alice", VStr "alice"); ("--x", VStr "--x")] false []).
  - repeat constructor; by eexists _, _.
  - by intros t ts [= <- _].
  - intros s Hs Hr. apply list_elem_of_singleton in Hs as ->. discriminate.
Defined.

(** X13: when the tokens run out before the positional specs do, the parse
    fails with MissingValue, naming the first spelling of the first
    positional spec that is left without a token. *)
Theorem positional_tokens_run_out (self : ArgumentParser) (pre : list _Arg) (s : _Arg)
    (post : list _Arg) (tvs : list (string * value)) (name0 : string)
    (names' : list string) (return_unknown : bool) (σ : store) :
  pos self = pre ++ s :: post →
  Forall2 takes_one pre tvs → single_token s → names s = name0 :: names' →
  (∀ t ts, tvs.*1 = t :: ts → looks_named t = false) →
  _parse_args self (tvs.*1) return_unknown σ = (Fail (Raise (MissingValue name0)), σ).
Proof.
  intros Hpos Hpre Hs Hn Hfront. unfold _parse_args.
  assert (front_option tvs.*1 = None) as Hf.
  { destruct (tvs.*1) as [|t ts] eqn:E; [done|]. cbn. by rewrite (Hfront t ts eq_refl). }
  rewrite loop_S. cbn [negb orb]. rewrite orb_true_r, Hf, Hpos.
  by rewrite (parse_pos_short pre s post tvs name0 names' Hpre Hs Hn).
Qed.

Lemma positional_tokens_run_out_witness :
  _parse_args count_name_file ["alice"] true [] = (Fail (Raise (MissingValue "file")), []).
Proof.
  apply (positional_tokens_run_out count_name_file [name_spec] file_spec []
           [("alice", VStr "alice")] "file" [] true []).
  - reflexivity.
  - repeat constructor; by eexists _, _.
  - split; [by left|reflexivity].
  - reflexivity.
  - by intros t ts [= <- _].
Defined.

(** X14: in strict mode, when every positional spec has taken its token and
    the next token does not look like a named option, the parse fails with
    ExtraArguments, which holds that token and all the tokens after it. *)
Theorem positional_tokens_left_over (self : ArgumentParser) (tvs : list (string * value))
    (e : string) (rest : list string) (σ : store) :
  Forall2 takes_one (pos self) tvs →
  (∀ t ts, tvs.*1 ++ [e] = t :: ts → looks_named t = false) →
  looks_named e = false →
  _parse_args self (tvs.*1 ++ e :: rest) false σ
  = (Fail (Raise (ExtraArguments (e :: rest))), σ).
Proof.
  intros Hpos Hfront He. unfold _parse_args.
  assert (front_option (tvs.*1 ++ e :: rest) = None) as Hf.
  { destruct (tvs.*1) as [|t ts] eqn:E; cbn; [by rewrite He|].
    by rewrite (Hfront t (ts ++ [e]) eq_refl). }
  rewrite loop_S. cbn [negb orb]. rewrite orb_true_r, Hf.
  rewrite (parse_pos_takes (pos self) tvs Hpos).
  rewrite loop_S, bool_decide_eq_false_2 by done. cbn [negb orb front_option].
  by rewrite He.
Qed.

Lemma positional_tokens_left_over_witness :
  _parse_args count_name ["alice"; "bob"; "--count"; "3"] false []
  = (Fail (Raise (ExtraArguments ["bob"; "--count"; "3"])), []).
Proof.
  apply (positional_tokens_left_over count_name [("alice", VStr "alice")] "bob"
           ["--count"; "3"] []).
  - repeat constructor; by eexists _, _.
  - by intros t ts [= <- _].
  - reflexivity.
Defined.

(** ** Registration followed by a parse *)

Section Flags.

Lemma looks_named_startswith (a : string) : looks_named a = true → startswith a "-" = true.
Proof. unfold looks_named. by destruct (startswith a "-"). Qed.

Lemma replace_dash_no_dash (s : string) : has_dash (replace_dash s) = false.
Proof.
  induction s as [|c s IH]; [done|]. cbn [replace_dash has_dash]. rewrite IH.
  by destruct (Ascii.eqb c "-") eqn:E; [|rewrite E].
Qed.

End Flags.

(** X15: a flag registered under one spelling with [action="store_true"]
    ([b = true]) or ["store_false"] ([b = false]), without a default: its
    dest is the spelling without its leading dashes and with the other
    dashes replaced; the parse binds it to [b] when the spelling is given
    and to the opposite boolean when it is not; the store is not changed. *)
Theorem flag_sugar (n : string) (b : bool) (return_unknown : bool) (σ : store) :
  looks_named n = true → str_in n ["-h"; "--help"] = false →
  ∃ p, add_argument (new_parser "prog" "" "") [n] (flag_kwargs b) = Ret p ∧
    let d := replace_dash (lstrip_dash n) in
    let leftover := if return_unknown then Some [] else None in
    _parse_args p [] return_unknown σ
    = (Ret {| values := [(d, VBool (negb b))]; unknown := leftover |}, σ) ∧
    _parse_args p [n] return_unknown σ
    = (Ret {| values := [(d, VBool b)]; unknown := leftover |}, σ).
Proof.
  intros Hnamed Hhelp.
  assert (add_argument (new_parser "prog" "" "") [n] (flag_kwargs b)
          = Ret (append_opt (new_parser "prog" "" "")
                   (mk_Arg [n] (replace_dash (lstrip_dash n)) None py_str "store_const" VNone
                      (VBool b) (VBool (negb b)) false None ""))) as Hadd.
  { unfold add_argument. cbn [flag_kwargs kw_action kw_dest from_option id].
    rewrite (looks_named_startswith n Hnamed).
    unfold _dest_from_optnames. cbn [List.find].
    assert (from_option id n (if is_long n then Some n else None) = n) as ->
      by by destruct (is_long n).
    by destruct b. }
  eexists. split; [exact Hadd|]. cbn zeta. split.
  - by destruct return_unknown.
  - unfold _parse_args. cbn -[loop]. rewrite loop_S.
    cbn -[loop str_in looks_named]. rewrite Hnamed, Hhelp.
    cbn -[loop looks_named]. rewrite String.eqb_refl.
    by destruct return_unknown.
Qed.

Lemma flag_sugar_witness :
  ∃ p, add_argument (new_parser "prog" "" "") ["--dry-run"] (flag_kwargs false) = Ret p ∧
    _parse_args p [] false [] 
    = (Ret {| values := [("dry_run", VBool true)]; unknown := None |}, []) ∧
    _parse_args p ["--dry-run"] false []
    = (Ret {| values := [("dry_run", VBool false)]; unknown := None |}, []).
Proof. exact (flag_sugar "--dry-run" false false [] eq_refl eq_refl). Defined.

(** X16: the dest that [_dest_from_optnames] derives never holds a dash
    (dashes in front are stripped, the others become underscores); the
    derivation fails, with IndexError, on the empty list of spellings
    only. *)
Theorem derived_dest_has_no_dash (opt_names : list string) :
  (_dest_from_optnames opt_names = Fail (Uncaught IndexError) ↔ opt_names = []) ∧
  (opt_names ≠ [] → ∃ d, _dest_from_optnames opt_names = Ret d ∧ has_dash d = false).
Proof.
  destruct opt_names as [|n0 ns]; cbn [_dest_from_optnames].
  - split; [done|]. by intros [].
  - split; [split; done|]. intros _. eexists. split; [done|]. apply replace_dash_no_dash.
Qed.

(** ** Tolerant mode on undeclared tokens *)

Section PassThrough.

Variable self : ArgumentParser.
Hypothesis pos_none : pos self = [].

Lemma take_drop_while {A : Type} (p : A → bool) (l : list A) :
  take_while p l ++ drop_while p l = l.
Proof. induction l as [|x l IH]; [done|]. cbn. destruct (p x); [|done]. cbn. by rewrite IH. Qed.

Lemma drop_while_suffix {A : Type} (p : A → bool) (l : list A) :
  drop_while p l `suffix_of` l.
Proof. exists (take_while p l). by rewrite take_drop_while. Qed.

(** The tolerant loop moves undeclared tokens to [unknown], in order. *)
Lemma loop_pass_through (fuel : nat) :
  ∀ (args : list string) (parsed_pos : bool) arg_dest arg_vals unknown σ,
    (List.length args + (if parsed_pos then 1 else 2) ≤ fuel)%nat →
    Forall (undeclared self) args →
    loop fuel self true args parsed_pos arg_dest arg_vals unknown σ
    = (Ret {| l_dest := arg_dest; l_vals := arg_vals; l_unknown := unknown ++ args |}, σ).
Proof.
  induction fuel as [|fuel IH]; intros args parsed_pos arg_dest arg_vals unknown σ Hfuel Hun.
  { destruct parsed_pos; lia. }
  rewrite loop_S. destruct args as [|a rest].
  - rewrite bool_decide_eq_true_2 by done. cbn [negb orb front_option].
    destruct parsed_pos; cbn [negb]; [by rewrite app_nil_r|].
    rewrite pos_none. cbn [parse_pos consume_unknown].
    apply IH; [cbn in *; lia|done].
  - rewrite bool_decide_eq_false_2 by done. cbn [negb orb front_option].
    apply Forall_cons in Hun as [[Hhelp Hopt] Hrest].
    cbn [List.length] in Hfuel.
    destruct (looks_named a).
    + rewrite Hhelp, (scan_no_match a (opt self) Hopt), consume_unknown_spec.
      rewrite IH.
      * by rewrite <- !app_assoc, take_drop_while.
      * pose proof (suffix_length _ _ (drop_while_suffix undashed rest)).
        destruct parsed_pos; lia.
      * destruct (drop_while_suffix undashed rest) as [k Hk].
        rewrite Hk in Hrest. by apply Forall_app in Hrest as [_ ?].
    + destruct parsed_pos; [done|].
      rewrite pos_none. cbn [parse_pos]. rewrite consume_unknown_spec.
      rewrite IH.
      * by rewrite <- !app_assoc, take_drop_while.
      * pose proof (suffix_length _ _ (drop_while_suffix undashed (a :: rest))) as Hl.
        cbn [List.length] in Hl. lia.
      * destruct (drop_while_suffix undashed (a :: rest)) as [k Hk].
        assert (Forall (undeclared self) (a :: rest)) as Hall by by constructor.
        rewrite Hk in Hall. by apply Forall_app in Hall as [_ ?].
Qed.

End PassThrough.

(** X17: in tolerant mode, a parser without positional specs, given tokens
    none of which is a declared spelling or a help spelling, returns all
    the tokens, in their order, as the leftover sequence, binds every
    named spec to its default (no required one having the default [None])
    and leaves the store as it is. *)
Theorem undeclared_tokens_pass_through (self : ArgumentParser) (args : list string)
    (σ : store) :
  pos self = [] →
  Forall (undeclared self) args →
  (∀ s, s ∈ opt self → required s = true → default s ≠ VNone) →
  _parse_args self args true σ
  = (Ret {| values := combine (map dest (opt self)) (map default (opt self));
            unknown := Some args |}, σ).
Proof.
  intros Hpos Hun Hreq. unfold _parse_args.
  rewrite (loop_pass_through self Hpos) by (done || cbn; lia).
  cbn [l_vals l_dest l_unknown app].
  pose proof (required_defaults_then (opt self) [] Hreq) as Hr.
  rewrite app_nil_r in Hr. rewrite Hr.
  unfold namedtuple. by rewrite decide_True by by rewrite !length_map.
Qed.

Lemma undeclared_tokens_pass_through_witness :
  _parse_args (append_opt (new_parser "prog" "" "") count_spec)
    ["x"; "--unk"; "y"; "-"; "--"; "z"] true []
  = (Ret {| values := [("count", VInt 0)];
            unknown := Some ["x"; "--unk"; "y"; "-"; "--"; "z"] |}, []).
Proof.
  apply (undeclared_tokens_pass_through (append_opt (new_parser "prog" "" "") count_spec)
           ["x"; "--unk"; "y"; "-"; "--"; "z"] []).
  - reflexivity.
  - repeat constructor.
  - intros s Hs Hr. apply list_elem_of_singleton in Hs as ->. discriminate.
Defined.

(** ** The scan of the named specs *)

Section ScanOrder.

Lemma scan_skip (a : string) (pre : list _Arg) :
  Forall (λ s, str_in a (names s) = false) pre →
  ∀ opts k found arg_vals args σ,
    scan a k (pre ++ opts) found arg_vals args σ
    = scan a (k + List.length pre) opts found arg_vals args σ.
Proof.
  induction 1 as [|s pre Hs _ IH]; intros opts k found arg_vals args σ; cbn [app List.length].
  - by rewrite Nat.add_0_r.
  - cbn [scan]. rewrite Hs, IH. f_equal. lia.
Qed.

End ScanOrder.

(** X18: the first spec that declares the popped spelling wins: when it is
    not an append spec, its value alone is assigned (at its own index) and
    the specs after it, whether they declare the spelling too or not, are
    not consulted and take no token. *)
Theorem first_match_wins (a : string) (pre : list _Arg) (s : _Arg) (post : list _Arg)
    (arg_vals : list value) (args : list string) (σ : store) :
  Forall (λ s', str_in a (names s') = false) pre →
  str_in a (names s) = true → action s ≠ "append" →
  (List.length pre < List.length arg_vals)%nat →
  scan a 0 (pre ++ s :: post) false arg_vals args σ
  = match parse s a args σ with
    | (Ret v, args', σ') => (Ret (true, <[List.length pre := v]> arg_vals), args', σ')
    | (Fail f, args', σ') => (Fail f, args', σ')
    end.
Proof.
  intros Hpre Hs Hact Hlen. rewrite (scan_skip a pre Hpre). cbn [scan Nat.add].
  rewrite Hs. destruct (String.eqb_spec (action s) "append") as [|_]; [done|].
  destruct (parse s a args σ) as [[[v|f] args'] σ']; [|done].
  by rewrite decide_True.
Qed.

Lemma first_match_wins_witness :
  scan "-n" 0 [count_spec; name_spec;
               mk_Arg ["-n"] "first" None py_str "store" VNone VNone VNone false None "";
               mk_Arg ["-n"] "second" None py_str "store" VNone VNone VNone false None ""]
    false [VInt 0; VNone; VNone; VNone] ["a"; "b"] []
  = (Ret (true, [VInt 0; VNone; VStr "a"; VNone]), ["b"], []).
Proof.
  apply (first_match_wins "-n" [count_spec; name_spec]
           (mk_Arg ["-n"] "first" None py_str "store" VNone VNone VNone false None "")
           [mk_Arg ["-n"] "second" None py_str "store" VNone VNone VNone false None ""]
           [VInt 0; VNone; VNone; VNone] ["a"; "b"] []).
  - by repeat constructor.
  - reflexivity.
  - discriminate.
  - cbn. lia.
Defined.

(** X19: an append spec whose default is neither [None] nor a list cannot
    be used: when its spelling is the first token (and no earlier spec
    declares that spelling), the parse ends with an uncaught
    AttributeError, in both modes, before any value is taken, and the
    store is as it was. *)
Theorem append_needs_list_default (self : ArgumentParser) (pre : list _Arg) (s : _Arg)
    (post : list _Arg) (n : string) (rest : list string) (return_unknown : bool)
    (σ : store) :
  opt self = pre ++ s :: post →
  Forall (λ s', str_in n (names s') = false) pre →
  str_in n (names s) = true → action s = "append" →
  default s ≠ VNone → (∀ l, default s ≠ VList l) →
  looks_named n = true → str_in n ["-h"; "--help"] = false →
  _parse_args self (n :: rest) return_unknown σ = (Fail (Uncaught AttributeError), σ).
Proof.
  intros Hopt Hpre Hs Hact Hnone Hlist Hnamed Hhelp. unfold _parse_args.
  rewrite loop_S. rewrite bool_decide_eq_false_2 by done. cbn [negb orb front_option].
  rewrite Hnamed, Hhelp, Hopt, (scan_skip n pre Hpre). cbn [scan Nat.add].
  rewrite Hs, Hact. cbn [String.eqb Ascii.eqb Bool.eqb].
  rewrite !map_app. cbn [map].
  rewrite lookup_app_r by (rewrite length_map; lia).
  rewrite length_map, Nat.sub_diag. cbn [lookup list_lookup].
  destruct (default s) as [| | | |l]; try done. by destruct (Hlist l).
Qed.

Lemma append_needs_list_default_witness :
  _parse_args (append_opt count_name
                 (mk_Arg ["-t"] "tags" None py_str "append" VNone VNone (VStr "") false None ""))
    ["-t"; "a"] false []
  = (Fail (Uncaught AttributeError), []).
Proof.
  apply (append_needs_list_default _ [count_spec]
           (mk_Arg ["-t"] "tags" None py_str "append" VNone VNone (VStr "") false None "") []);
    try done. by repeat constructor.
Defined.

(** ** The entry points *)

(** X20: a named spec that stores one value, given as the only token, finds
    no value: the parse fails with MissingValue, which names the spelling
    that was used on the command line (not the dest, nor the spec's other
    spellings); the store is as it was. *)
Theorem missing_value_names_the_spelling (self : ArgumentParser) (pre : list _Arg)
    (s : _Arg) (post : list _Arg) (n : string) (return_unknown : bool) (σ : store) :
  opt self = pre ++ s :: post →
  Forall (λ s', str_in n (names s') = false) pre →
  str_in n (names s) = true → action s = "store" → nargs s = VNone →
  looks_named n = true → str_in n ["-h"; "--help"] = false →
  _parse_args self [n] return_unknown σ = (Fail (Raise (MissingValue n)), σ).
Proof.
  intros Hopt Hpre Hs Hact Hn Hnamed Hhelp. unfold _parse_args.
  rewrite loop_S. rewrite bool_decide_eq_false_2 by done. cbn [negb orb front_option].
  rewrite Hnamed, Hhelp, Hopt, (scan_skip n pre Hpre). cbn [scan Nat.add].
  rewrite Hs, Hact. cbn [String.eqb Ascii.eqb Bool.eqb].
  unfold parse. by rewrite Hact, Hn.
Qed.

Lemma missing_value_names_the_spelling_witness :
  _parse_args out_parser ["-o"] false [] = (Fail (Raise (MissingValue "-o")), []).
Proof.
  by apply (missing_value_names_the_spelling out_parser [] out_spec [] "-o" false []).
Defined.

(** X21: without an explicit list the tokens are [sys.argv] without its
    first element, the program name; an explicit list that holds the same
    tokens gives the same outcome and the same store. *)
Theorem argv_is_the_default_token_list (self : ArgumentParser) (prog_name : string)
    (toks : list string) (l : loc) (return_unknown : bool) (σ : store) :
  σ !! l = Some (VStr <$> toks) →
  _parse_args_impl self (prog_name :: toks) None return_unknown σ
  = _parse_args_impl self [] (Some l) return_unknown σ.
Proof.
  intros Hl. rewrite (_parse_args_impl_explicit self [] toks l return_unknown σ Hl).
  reflexivity.
Qed.

Lemma argv_is_the_default_token_list_witness :
  parse_args count_name ["prog"; "--count"; "3"; "alice"] None
    [[VStr "--count"; VStr "3"; VStr "alice"]]
  = parse_args count_name [] (Some 0%nat) [[VStr "--count"; VStr "3"; VStr "alice"]].
Proof.
  exact (argv_is_the_default_token_list count_name "prog" ["--count"; "3"; "alice"] 0%nat
           false [[VStr "--count"; VStr "3"; VStr "alice"]] eq_refl).
Defined.
